(** * avid-journal: the LaTeX block extractor [src/parser/latex_parser.py]

    A shallow embedding of [LaTeXParser] and the properties of its
    balanced block scanner, proof associator, environment-name
    normaliser, custom environment detector and document walker.

    Character model.  A Python [str] is a sequence of code points; here a
    text is a [list ascii] whose elements are the code points 0..255
    (Latin-1), which covers every constant of the program (the accented
    names of the alias and proof tables included).  On that range
    [str.lower], [str.strip] and the [re] module's IGNORECASE and [\s]
    behave as [lower_char] and [is_space] below. *)

From Stdlib Require Import Ascii String DecimalString.
From Stdlib Require Import List Bool Arith ZArith Lia.
Import ListNotations.

(** ** Strings *)

Definition str := list ascii.

Definition py (s : string) : str := list_ascii_of_string s.

Definition str_eq_dec : forall a b : str, {a = b} + {a <> b} :=
  list_eq_dec ascii_dec.

Definition str_eqb (a b : str) : bool :=
  if str_eq_dec a b then true else false.

Definition chr (n : nat) : ascii := ascii_of_nat n.

(** [str.lower] on one code point: A-Z and the Latin-1 capitals
    (U+00C0..U+00DE without the multiplication sign U+00D7). *)
Definition lower_char (c : ascii) : ascii :=
  let n := nat_of_ascii c in
  if ((65 <=? n) && (n <=? 90))
     || ((192 <=? n) && (n <=? 222) && negb (n =? 215))
  then ascii_of_nat (n + 32) else c.

Definition lower (s : str) : str := map lower_char s.

(** Python's whitespace ([str.isspace], [\s]) below U+0100. *)
Definition is_space (c : ascii) : bool :=
  let n := nat_of_ascii c in
  ((9 <=? n) && (n <=? 13)) || ((28 <=? n) && (n <=? 32))
  || (n =? 133) || (n =? 160).

Definition ascii_eqb (a b : ascii) : bool := Ascii.eqb a b.

Fixpoint lstrip_by (p : ascii -> bool) (s : str) : str :=
  match s with
  | c :: s' => if p c then lstrip_by p s' else s
  | [] => []
  end.

Definition rstrip_by (p : ascii -> bool) (s : str) : str :=
  rev (lstrip_by p (rev s)).

(** [s.strip()] *)
Definition strip (s : str) : str := rstrip_by is_space (lstrip_by is_space s).

(** [s.rstrip('*')] *)
Definition is_star (c : ascii) : bool := ascii_eqb c "*".
Definition rstrip_star (s : str) : str := rstrip_by is_star s.

(** [text[a:]] and [text[a:b]] for offsets [0 <= a], [0 <= b]. *)
Definition slice_from (text : str) (a : nat) : str := skipn a text.
Definition slice (text : str) (a b : nat) : str := firstn (b - a) (skipn a text).

(** [w] is a prefix of [s], compared after lowercasing when [ic]. *)
Definition chr_match (ic : bool) (c x : ascii) : bool :=
  if ic then ascii_eqb (lower_char x) (lower_char c) else ascii_eqb x c.

Fixpoint starts_with (ic : bool) (w s : str) : bool :=
  match w, s with
  | [], _ => true
  | c :: w', x :: s' => chr_match ic c x && starts_with ic w' s'
  | _ :: _, [] => false
  end.

(** [sub in s] *)
Fixpoint contains (sub s : str) : bool :=
  starts_with false sub s ||
  match s with
  | [] => false
  | _ :: s' => contains sub s'
  end.

(** [s.split(sep)] for a one-character separator, and [sep.join]. *)
Fixpoint split_on (sep : ascii) (s : str) : list str :=
  match s with
  | [] => [[]]
  | c :: s' =>
      if ascii_eqb c sep then [] :: split_on sep s'
      else match split_on sep s' with
           | l :: ls => (c :: l) :: ls
           | [] => [[c]]
           end
  end.

Fixpoint join (sep : str) (ls : list str) : str :=
  match ls with
  | [] => []
  | [l] => l
  | l :: ls' => l ++ sep ++ join sep ls'
  end.

(** ** The fragment of [re] the parser uses

    Literals, character classes, concatenation, ordered alternation,
    greedy [?], greedy [*] and [+] over a character class, and capture
    groups.  The matcher is the usual backtracking one, written with a
    continuation: alternatives are tried in order and a greedy operator
    gives back characters only when what follows fails. *)

Inductive re : Type :=
| Eps
| Chr (c : ascii)
| Cls (p : ascii -> bool)
| Cat (r1 r2 : re)
| Alt (r1 r2 : re)
| Opt (r : re)
| Star (p : ascii -> bool)
| Plus (p : ascii -> bool)
| Grp (n : nat) (r : re).

Definition captures := list (nat * str).

Fixpoint group (n : nat) (caps : captures) : option str :=
  match caps with
  | [] => None
  | (m, s) :: caps' => if n =? m then Some s else group n caps'
  end.

Section Matcher.
Variable A : Type.

Fixpoint star_loop (p : ascii -> bool) (s : str) (k : str -> option A)
  : option A :=
  match s with
  | x :: s' =>
      if p x then
        match star_loop p s' k with
        | Some a => Some a
        | None => k s
        end
      else k s
  | [] => k []
  end.

Fixpoint rmatch (ic : bool) (r : re) (s : str) (caps : captures)
         (k : str -> captures -> option A) : option A :=
  match r with
  | Eps => k s caps
  | Chr c =>
      match s with
      | x :: s' => if chr_match ic c x then k s' caps else None
      | [] => None
      end
  | Cls p =>
      match s with
      | x :: s' => if p x then k s' caps else None
      | [] => None
      end
  | Cat r1 r2 =>
      rmatch ic r1 s caps (fun s' caps' => rmatch ic r2 s' caps' k)
  | Alt r1 r2 =>
      match rmatch ic r1 s caps k with
      | Some a => Some a
      | None => rmatch ic r2 s caps k
      end
  | Opt r1 =>
      match rmatch ic r1 s caps k with
      | Some a => Some a
      | None => k s caps
      end
  | Star p => star_loop p s (fun s' => k s' caps)
  | Plus p =>
      match s with
      | x :: s' => if p x then star_loop p s' (fun s'' => k s'' caps) else None
      | [] => None
      end
  | Grp n r1 =>
      rmatch ic r1 s caps
        (fun s' caps' => k s' ((n, firstn (length s - length s') s) :: caps'))
  end.
End Matcher.

Arguments star_loop {A} p s k.
Arguments rmatch {A} ic r s caps k.

(** A match object: [start()], [end()] and the groups. *)
Record Match : Type := mkMatch {
  m_start : nat;
  m_end : nat;
  m_groups : captures
}.

(** [pattern.match] at the head of [s]: the number of characters consumed
    and the groups. *)
Definition match_at (ic : bool) (r : re) (s : str) : option (nat * captures) :=
  rmatch ic r s [] (fun s' caps => Some (length s - length s', caps)).

(** Leftmost match in [s]; [off] is the offset of [s] in the whole text. *)
Fixpoint search_from (ic : bool) (r : re) (s : str) (off : nat) : option Match :=
  match match_at ic r s with
  | Some (n, caps) => Some (mkMatch off (off + n) caps)
  | None =>
      match s with
      | [] => None
      | _ :: s' => search_from ic r s' (S off)
      end
  end.

(** [pattern.search(text, pos)].  None of the patterns searched this way
    has an anchor or a look-behind, so searching from [pos] is searching
    the suffix and shifting the offsets. *)
Definition re_search (ic : bool) (r : re) (text : str) (pos : nat) : option Match :=
  search_from ic r (skipn pos text) pos.

(** [pattern.finditer(s)]: the groups of the successive non-overlapping
    matches.  [skip] counts the characters of the current match still to
    be stepped over. *)
Fixpoint finditer_aux (ic : bool) (r : re) (skip : nat) (s : str)
  : list captures :=
  match skip with
  | S k =>
      match s with
      | [] => []
      | _ :: s' => finditer_aux ic r k s'
      end
  | 0 =>
      match s with
      | [] => match match_at ic r [] with
              | Some (_, caps) => [caps]
              | None => []
              end
      | _ :: s' =>
          match match_at ic r s with
          | Some (n, caps) => caps :: finditer_aux ic r (n - 1) s'
          | None => finditer_aux ic r 0 s'
          end
      end
  end.

Definition finditer (ic : bool) (r : re) (s : str) : list captures :=
  finditer_aux ic r 0 s.

(** [re.sub(pattern, repl, s)]: every non-overlapping match, left to
    right, replaced by [repl] of its groups. *)
Fixpoint re_sub_aux (ic : bool) (r : re) (repl : captures -> str)
         (skip : nat) (s : str) : str :=
  match skip with
  | S k =>
      match s with
      | [] => []
      | _ :: s' => re_sub_aux ic r repl k s'
      end
  | 0 =>
      match s with
      | [] => match match_at ic r [] with
              | Some (_, caps) => repl caps
              | None => []
              end
      | c :: s' =>
          match match_at ic r s with
          | Some (0, caps) => repl caps ++ c :: re_sub_aux ic r repl 0 s'
          | Some (S n, caps) => repl caps ++ re_sub_aux ic r repl n s'
          | None => c :: re_sub_aux ic r repl 0 s'
          end
      end
  end.

Definition re_sub (ic : bool) (r : re) (repl : captures -> str) (s : str) : str :=
  re_sub_aux ic r repl 0 s.

(** The replacement templates ['...'] and [r'\1']. *)
Definition repl_const (s : str) : captures -> str := fun _ => s.
Definition repl_group (n : nat) : captures -> str :=
  fun caps => match group n caps with Some s => s | None => [] end.

(** A literal word ([re.escape] of it) and an alternation ['|'.join]. *)
Fixpoint lit (w : str) : re :=
  match w with
  | [] => Eps
  | c :: w' => Cat (Chr c) (lit w')
  end.

Fixpoint alts (rs : list re) : re :=
  match rs with
  | [] => Eps
  | [r] => r
  | r :: rs' => Alt r (alts rs')
  end.

(** ** [LaTeXParser] *)

Definition o_acute : ascii := chr 243.  (* U+00F3 *)

Definition mem (s : str) (l : list str) : bool := existsb (str_eqb s) l.

(** Class constants. *)
Definition MATH_ENVIRONMENTS : list str :=
  [py "definition"; py "theorem"; py "lemma"; py "proposition"; py "corollary"].

Definition ENVIRONMENT_VARIANTS : list (str * str) :=
  [ (py "teorema", py "theorem");
    (py "definicion", py "definition");
    (py "definici" ++ [o_acute] ++ py "n", py "definition");
    (py "lema", py "lemma");
    (py "proposicion", py "proposition");
    (py "proposici" ++ [o_acute] ++ py "n", py "proposition");
    (py "corolario", py "corollary");
    (py "thm", py "theorem");
    (py "defn", py "definition");
    (py "def", py "definition");
    (py "lem", py "lemma");
    (py "prop", py "proposition");
    (py "cor", py "corollary");
    (py "corol", py "corollary") ].

Fixpoint dict_get (k : str) (d : list (str * str)) : option str :=
  match d with
  | [] => None
  | (k', v) :: d' => if str_eqb k k' then Some v else dict_get k d'
  end.

Definition proof_variants : list str :=
  [py "proof"; py "prueba"; py "demostracion";
   py "demostraci" ++ [o_acute] ++ py "n"; py "dem"].

Definition not_chr (c : ascii) : ascii -> bool := fun x => negb (ascii_eqb x c).

(** The instance: what [__init__] assigns. *)
Record LaTeXParser : Type := mkParser {
  env_pattern : re;
  proof_start_pattern : re;
  proof_end_pattern : re
}.

(** [all_envs]: the set of registered names.  A Python set has no
    specified iteration order; the names are listed here in insertion
    order, each once. *)
Definition all_envs (custom_environments : list str) : list str :=
  nodup str_eq_dec
    (MATH_ENVIRONMENTS ++ map fst ENVIRONMENT_VARIANTS ++ custom_environments).

(** The statement matcher: [\begin{], group 1 = one of the registered
    names, an optional star, [}], then optionally a bracketed title,
    group 2 = any run of characters other than the closing bracket. *)
Definition env_pattern_of (names : list str) : re :=
  Cat (lit (py "\begin{"))
 (Cat (Grp 1 (alts (map lit names)))
 (Cat (Opt (Chr "*"))
 (Cat (Chr "}")
      (Opt (Cat (Chr "[") (Cat (Grp 2 (Star (not_chr "]"))) (Chr "]"))))))).

(** The proof matchers: a backslash, [begin] or [end], [{], group 1 =
    one of the proof names, an optional star, [}]. *)
Definition proof_pattern_of (kw : str) : re :=
  Cat (Chr "\")
 (Cat (lit kw)
 (Cat (Chr "{")
 (Cat (Grp 1 (alts (map lit proof_variants)))
 (Cat (Opt (Chr "*")) (Chr "}"))))).

(** [__init__(custom_environments)]; the empty list stands for [None]
    as well, both being false in [if custom_environments:]. *)
Definition init (custom_environments : list str) : LaTeXParser :=
  mkParser (env_pattern_of (all_envs custom_environments))
           (proof_pattern_of (py "begin"))
           (proof_pattern_of (py "end")).

(** *** [remove_comments] *)

(** The line up to the first [%] that is not preceded by a backslash;
    [esc] tells whether the previous character was a backslash. *)
Fixpoint cut_comment (esc : bool) (line : str) : str :=
  match line with
  | [] => []
  | c :: l =>
      if ascii_eqb c "%" && negb esc then []
      else c :: cut_comment (ascii_eqb c "\") l
  end.

Definition newline : ascii := chr 10.
Definition tab : ascii := chr 9.

Definition remove_comments (text : str) : str :=
  join [newline] (map (cut_comment false) (split_on newline text)).

(** *** [clean_content] *)

Definition cmd_braced (name : string) : re :=
  Cat (lit (py name)) (Cat (Chr "{") (Cat (Plus (not_chr "}")) (Chr "}"))).

Definition cmd_braced_group (name : string) : re :=
  Cat (lit (py name)) (Cat (Chr "{") (Cat (Grp 1 (Plus (not_chr "}"))) (Chr "}"))).

Definition is_newline (c : ascii) : bool := ascii_eqb c newline.
Definition is_blank (c : ascii) : bool := ascii_eqb c " " || ascii_eqb c tab.

(** A newline, whitespace, a newline, whitespace, one or more newlines:
    a run of blank lines. *)
Definition blank_lines : re :=
  Cat (Chr newline) (Cat (Star is_space) (Cat (Chr newline)
 (Cat (Star is_space) (Plus is_newline)))).

Definition clean_content (content : str) : str :=
  let content := re_sub false (cmd_braced "\vspace") (repl_const []) content in
  let content := re_sub false (cmd_braced "\hspace") (repl_const []) content in
  let content := re_sub false (lit (py "\newpage")) (repl_const []) content in
  let content := re_sub false (lit (py "\clearpage")) (repl_const []) content in
  let content := re_sub false (lit (py "\pagebreak")) (repl_const []) content in
  let content := re_sub false (cmd_braced_group "\textbf") (repl_group 1) content in
  let content := re_sub false (cmd_braced_group "\textit") (repl_group 1) content in
  let content := re_sub false (cmd_braced_group "\emph") (repl_group 1) content in
  let content := re_sub false blank_lines (repl_const [newline; newline]) content in
  let content := re_sub false (Plus is_blank) (repl_const (py " ")) content in
  strip content.

(** *** [extract_references] *)

(** A backslash, an optional [eq], [ref{], group 1 = one or more
    characters other than the closing brace, [}]. *)
Definition ref_pattern : re :=
  Cat (Chr "\") (Cat (Opt (lit (py "eq"))) (Cat (lit (py "ref{"))
 (Cat (Grp 1 (Plus (not_chr "}"))) (Chr "}")))).

Definition group_str (n : nat) (caps : captures) : str :=
  match group n caps with Some s => s | None => [] end.

(** False in a Python condition: the empty string or list. *)
Definition is_empty {A : Type} (s : list A) : bool :=
  match s with [] => true | _ => false end.

Fixpoint collect_refs (ms : list captures) (references : list str) : list str :=
  match ms with
  | [] => references
  | caps :: ms' =>
      let ref_label := strip (group_str 1 caps) in
      if negb (is_empty ref_label) && negb (mem ref_label references)
      then collect_refs ms' (references ++ [ref_label])
      else collect_refs ms' references
  end.

Definition extract_references (text : str) : list str :=
  collect_refs (finditer false ref_pattern text) [].

(** *** [extract_label] *)

(** Optional whitespace, [\label{], group 1 = one or more characters
    other than the closing brace, [}].  The source anchors it with a
    caret and applies it with [match] to a slice: the anchor holds at
    offset 0, where [match] starts. *)
Definition label_pattern : re :=
  Cat (Star is_space) (Cat (lit (py "\label{"))
 (Cat (Grp 1 (Plus (not_chr "}"))) (Chr "}"))).

Definition extract_label (text : str) (start_pos : nat) : option str * nat :=
  let search_text := slice text start_pos (start_pos + 200) in
  match match_at false label_pattern search_text with
  | Some (n, caps) => (Some (strip (group_str 1 caps)), start_pos + n)
  | None => (None, start_pos)
  end.

(** *** [normalize_env_type] *)

Definition normalize_env_type (env_type : str) : str :=
  let env_lower := rstrip_star (lower env_type) in
  match dict_get env_lower ENVIRONMENT_VARIANTS with
  | Some canonical => canonical
  | None =>
      if mem env_lower MATH_ENVIRONMENTS then env_lower
      else if contains (py "th") env_lower || contains (py "teo") env_lower
           then py "theorem"
      else if contains (py "def") env_lower then py "definition"
      else if contains (py "lem") env_lower then py "lemma"
      else if contains (py "prop") env_lower then py "proposition"
      else if contains (py "cor") env_lower then py "corollary"
      else env_lower
  end.

(** *** [extract_environment] *)

(** A backslash, group 1 = [begin] or [end], [{], the name, an optional
    star, [}]; compiled with IGNORECASE. *)
Definition end_pattern (env_base : str) : re :=
  Cat (Chr "\")
 (Cat (Grp 1 (Alt (lit (py "begin")) (lit (py "end"))))
 (Cat (Chr "{")
 (Cat (lit env_base)
 (Cat (Opt (Chr "*")) (Chr "}"))))).

(** The [while depth > 0 and current_pos < len(text)] loop; [None] only
    when [fuel] runs out. *)
Fixpoint extract_environment_loop (fuel : nat) (text : str) (start_pos : nat)
         (pat : re) (depth : Z) (current_pos : nat) : option (str * nat) :=
  match fuel with
  | 0 => None
  | S fuel' =>
      if (0 <? depth)%Z && (current_pos <? length text) then
        match re_search true pat text current_pos with
        | None => Some (slice_from text start_pos, length text)
        | Some m =>
            let depth' :=
              if str_eqb (lower (group_str 1 (m_groups m))) (py "begin")
              then (depth + 1)%Z else (depth - 1)%Z in
            if (depth' =? 0)%Z
            then Some (slice text start_pos (m_start m), m_end m)
            else extract_environment_loop fuel' text start_pos pat depth' (m_end m)
        end
      else Some (slice_from text start_pos, length text)
  end.

Definition extract_environment (text : str) (start_pos : nat) (env_type : str)
  : option (str * nat) :=
  let env_base := rstrip_star env_type in
  extract_environment_loop (S (length text)) text start_pos
    (end_pattern env_base) 1%Z start_pos.

(** *** [extract_proof] *)

(** The earlier of the next opening and the next closing proof marker,
    with [is_begin]; the closing one on a tie. *)
Definition next_proof_marker (self : LaTeXParser) (text : str) (current_pos : nat)
  : option (Match * bool) :=
  let begin_match := re_search true (proof_start_pattern self) text current_pos in
  let end_match := re_search true (proof_end_pattern self) text current_pos in
  match begin_match, end_match with
  | Some b, Some e =>
      if m_start b <? m_start e then Some (b, true) else Some (e, false)
  | Some b, None => Some (b, true)
  | None, Some e => Some (e, false)
  | None, None => None
  end.

Fixpoint extract_proof_loop (fuel : nat) (self : LaTeXParser) (text : str)
         (proof_content_start : nat) (depth : Z) (current_pos : nat)
  : option (str * nat) :=
  match fuel with
  | 0 => None
  | S fuel' =>
      if (0 <? depth)%Z && (current_pos <? length text) then
        match next_proof_marker self text current_pos with
        | None => Some (slice_from text proof_content_start, length text)
        | Some (next_match, true) =>
            extract_proof_loop fuel' self text proof_content_start
              (depth + 1)%Z (m_end next_match)
        | Some (next_match, false) =>
            if (depth - 1 =? 0)%Z
            then Some (slice text proof_content_start (m_start next_match),
                       m_end next_match)
            else extract_proof_loop fuel' self text proof_content_start
                   (depth - 1)%Z (m_end next_match)
        end
      else Some (slice_from text proof_content_start, length text)
  end.

(** The outer [option] is [None] only when [fuel] runs out; the inner
    one is the function's [Optional] result. *)
Definition extract_proof (self : LaTeXParser) (text : str) (start_pos : nat)
  : option (option (str * nat)) :=
  let remaining := slice_from text start_pos in
  match re_search true (proof_start_pattern self) remaining 0 with
  | None => Some None
  | Some m =>
      let between := strip (slice remaining 0 (m_start m)) in
      if negb (is_empty between) then Some None
      else
        let proof_content_start := start_pos + m_end m in
        match extract_proof_loop (S (length text)) self text
                proof_content_start 1%Z proof_content_start with
        | Some r => Some (Some r)
        | None => None
        end
  end.

(** *** [detect_custom_environments] *)

(** [\newtheorem], an optional star, [{], group 1 = the name, [}], an
    optional bracketed counter, and a braced title. *)
Definition newtheorem_pattern : re :=
  Cat (lit (py "\newtheorem"))
 (Cat (Opt (Chr "*"))
 (Cat (Chr "{")
 (Cat (Grp 1 (Plus (not_chr "}")))
 (Cat (Chr "}")
 (Cat (Opt (Cat (Chr "[") (Cat (Star (not_chr "]")) (Chr "]"))))
 (Cat (Chr "{") (Cat (Plus (not_chr "}")) (Chr "}")))))))).

(** [\theoremstyle{...}], whitespace, [\newtheorem], an optional star,
    [{], group 1 = the name, [}]. *)
Definition theoremstyle_pattern : re :=
  Cat (lit (py "\theoremstyle{"))
 (Cat (Plus (not_chr "}"))
 (Cat (Chr "}")
 (Cat (Star is_space)
 (Cat (lit (py "\newtheorem"))
 (Cat (Opt (Chr "*"))
 (Cat (Chr "{")
 (Cat (Grp 1 (Plus (not_chr "}"))) (Chr "}")))))))).

(** The first [for] loop. *)
Fixpoint collect_newtheorem (ms : list captures) (custom_envs : list str)
  : list str :=
  match ms with
  | [] => custom_envs
  | caps :: ms' =>
      let env_name := strip (group_str 1 caps) in
      if negb (is_empty env_name) && negb (mem env_name MATH_ENVIRONMENTS)
      then collect_newtheorem ms' (custom_envs ++ [env_name])
      else collect_newtheorem ms' custom_envs
  end.

(** The second [for] loop. *)
Fixpoint collect_theoremstyle (ms : list captures) (custom_envs : list str)
  : list str :=
  match ms with
  | [] => custom_envs
  | caps :: ms' =>
      let env_name := strip (group_str 1 caps) in
      if negb (is_empty env_name) && negb (mem env_name MATH_ENVIRONMENTS)
         && negb (mem env_name custom_envs)
      then collect_theoremstyle ms' (custom_envs ++ [env_name])
      else collect_theoremstyle ms' custom_envs
  end.

Definition detect_custom_environments (text : str) : list str :=
  let custom_envs := collect_newtheorem (finditer false newtheorem_pattern text) [] in
  collect_theoremstyle (finditer false theoremstyle_pattern text) custom_envs.

(** *** [parse_text] *)

Record StatementBlock : Type := mkBlock {
  type : str;
  label : option str;
  title : option str;
  content_latex : str;
  proof_latex : option str;
  references : option (list str)
}.

(** [match.group(2).strip() if match.group(2) else None] *)
Definition title_of (g2 : option str) : option str :=
  match g2 with
  | Some g => if is_empty g then None else Some (strip g)
  | None => None
  end.

(** [all_refs]: the content's references, then the proof's new ones. *)
Fixpoint merge_refs (all_refs proof_refs : list str) : list str :=
  match proof_refs with
  | [] => all_refs
  | ref :: rest =>
      if negb (mem ref all_refs) then merge_refs (all_refs ++ [ref]) rest
      else merge_refs all_refs rest
  end.

(** What one iteration of the walker's loop does. *)
Inductive Step : Type :=
| Break
| Continue (pos : nat)
| Append (block : StatementBlock) (pos : nat).

(** The [if proof_result:] block: [proof_clean], [proof_refs] and
    [next_pos] as it leaves them. *)
Definition proof_fields (proof_result : option (str * nat)) (content_end : nat)
  : option str * list str * nat :=
  match proof_result with
  | Some (proof_content, proof_end) =>
      let proof_clean := clean_content proof_content in
      if negb (is_empty proof_clean) && (length (strip proof_clean) <? 3)
      then (None, [], proof_end)
      else (Some proof_clean, extract_references proof_content, proof_end)
  | None => (None, [], content_end)
  end.

(** The body of [while pos < len(text)]; [None] only when an inner loop
    runs out of fuel. *)
Definition parse_step (self : LaTeXParser) (text : str) (pos : nat)
  : option Step :=
  match re_search true (env_pattern self) text pos with
  | None => Some Break
  | Some m =>
      let env_type_raw := group_str 1 (m_groups m) in
      let env_type := normalize_env_type env_type_raw in
      let title := title_of (group 2 (m_groups m)) in
      let '(label, content_start) := extract_label text (m_end m) in
      match extract_environment text content_start env_type_raw with
      | None => None
      | Some (content, content_end) =>
          let content_clean := clean_content content in
          if is_empty content_clean || (length (strip content_clean) <? 3)
          then Some (Continue content_end)
          else
            let content_refs := extract_references content in
            match extract_proof self text content_end with
            | None => None
            | Some proof_result =>
                let '(proof_clean, proof_refs, next_pos) :=
                  proof_fields proof_result content_end in
                let all_refs := merge_refs content_refs proof_refs in
                Some (Append
                        (mkBlock env_type label title content_clean proof_clean
                           (if is_empty all_refs then None else Some all_refs))
                        next_pos)
            end
      end
  end.

Fixpoint parse_loop (fuel : nat) (self : LaTeXParser) (text : str)
         (pos : nat) (blocks : list StatementBlock)
  : option (list StatementBlock) :=
  match fuel with
  | 0 => None
  | S fuel' =>
      if pos <? length text then
        match parse_step self text pos with
        | None => None
        | Some Break => Some blocks
        | Some (Continue pos') => parse_loop fuel' self text pos' blocks
        | Some (Append block pos') =>
            parse_loop fuel' self text pos' (blocks ++ [block])
        end
      else Some blocks
  end.

(** The registry the walk uses: rebuilt from the document's own custom
    names when auto-detection finds some, the instance's otherwise. *)
Definition registry_for (self : LaTeXParser) (text : str)
           (auto_detect_envs : bool) : LaTeXParser :=
  if auto_detect_envs then
    let custom_envs := detect_custom_environments text in
    if negb (is_empty custom_envs) then init custom_envs else self
  else self.

(** [parse_text]: the blocks and the instance as the call leaves it. *)
Definition parse_text (self : LaTeXParser) (text : str) (auto_detect_envs : bool)
  : option (list StatementBlock) * LaTeXParser :=
  let text := remove_comments text in
  let self := registry_for self text auto_detect_envs in
  (parse_loop (S (length text)) self text 0 [], self).

(** * The command line's reports [src/parser/parse_tex.py]

    The functions of the command line print; what is modelled here is
    what they compute before printing: the dictionaries and the message
    lists, in the order the code builds them. *)

(** [str(i)] *)
Definition str_of_nat (n : nat) : str :=
  py (NilZero.string_of_uint (Nat.to_uint n)).

(** The truth value of a field that is [None] or a string. *)
Definition truthy (field : option str) : bool :=
  match field with
  | Some s => negb (is_empty s)
  | None => false
  end.

(** A dictionary with string keys, in insertion order: [d.get(k)] and
    [d[k] = v], which keeps the place of a key already there. *)
Fixpoint dict_lookup {V : Type} (k : str) (d : list (str * V)) : option V :=
  match d with
  | [] => None
  | (k', v) :: d' => if str_eqb k k' then Some v else dict_lookup k d'
  end.

Fixpoint dict_set {V : Type} (k : str) (v : V) (d : list (str * V))
  : list (str * V) :=
  match d with
  | [] => [(k, v)]
  | (k', v') :: d' =>
      if str_eqb k k' then (k, v) :: d' else (k', v') :: dict_set k v d'
  end.

(** ** [print_dependencies] *)

(** An entry of [label_map]. *)
Record Dep : Type := mkDep {
  dep_index : nat;
  dep_type : str;
  dep_title : option str
}.

(** The loop over [enumerate(blocks)], [i] being the rank of the first
    block of [blocks]. *)
Fixpoint label_map_loop (i : nat) (blocks : list StatementBlock)
         (label_map : list (str * Dep)) : list (str * Dep) :=
  match blocks with
  | [] => label_map
  | block :: rest =>
      label_map_loop (S i) rest
        (match label block with
         | Some l =>
             if negb (is_empty l)
             then dict_set l (mkDep (i + 1) (type block) (title block)) label_map
             else label_map
         | None => label_map
         end)
  end.

Definition label_map (blocks : list StatementBlock) : list (str * Dep) :=
  label_map_loop 0 blocks [].

(** ** [print_statistics] *)

(** [by_type]: the number of blocks of each kind. *)
Fixpoint by_type_loop (blocks : list StatementBlock) (by_type : list (str * nat))
  : list (str * nat) :=
  match blocks with
  | [] => by_type
  | block :: rest =>
      by_type_loop rest
        (dict_set (type block)
           (match dict_lookup (type block) by_type with
            | Some n => n
            | None => 0
            end + 1)
           by_type)
  end.

Definition by_type (blocks : list StatementBlock) : list (str * nat) :=
  by_type_loop blocks [].

(** ** [validate_blocks] *)

Definition a_acute : ascii := chr 225.  (* U+00E1 *)
Definition i_acute : ascii := chr 237.  (* U+00ED *)

(** [f"Bloque {i} ({block['type']}): ..."] *)
Definition block_message (i : nat) (block : StatementBlock) (what : str) : str :=
  py "Bloque " ++ str_of_nat i ++ py " (" ++ type block ++ py "): " ++ what.

Definition needs_proof (block : StatementBlock) : bool :=
  mem (type block) [py "theorem"; py "lemma"; py "proposition"; py "corollary"].

Definition has_math (block : StatementBlock) : bool :=
  existsb (fun marker => contains marker (content_latex block))
    [py "$"; py "\["; py "\("; py "\begin{equation"].

Definition needs_title (block : StatementBlock) : bool :=
  mem (type block) [py "theorem"; py "proposition"].

(** The loop over [enumerate(blocks, 1)]: [issues] and [warnings] as it
    leaves them. *)
Fixpoint validate_loop (i : nat) (blocks : list StatementBlock)
         (issues warnings : list str) : list str * list str :=
  match blocks with
  | [] => (issues, warnings)
  | block :: rest =>
      let issues :=
        if needs_proof block && negb (truthy (proof_latex block))
        then issues ++ [block_message i block
                          (py "Sin demostraci" ++ [o_acute] ++ py "n")]
        else issues in
      let warnings :=
        if negb (has_math block)
        then warnings ++ [block_message i block
                            (py "Sin f" ++ [o_acute] ++ py "rmulas matem"
                               ++ [a_acute] ++ py "ticas")]
        else warnings in
      let warnings :=
        if length (strip (content_latex block)) <? 20
        then warnings ++ [block_message i block (py "Contenido muy corto")]
        else warnings in
      let warnings :=
        if needs_title block && negb (truthy (title block))
        then warnings ++ [block_message i block
                            (py "Sin t" ++ [i_acute] ++ py "tulo")]
        else warnings in
      validate_loop (S i) rest issues warnings
  end.

(** [validate_blocks]: [None] for the early return on an empty list,
    else the issues and the warnings it reports. *)
Definition validate_blocks (blocks : list StatementBlock)
  : option (list str * list str) :=
  if is_empty blocks then None else Some (validate_loop 1 blocks [] []).

(** * The vocabulary of the statements *)

(** ** Words and patterns *)

(** [sub in s], as a proposition. *)
Definition substring (sub s : str) : Prop :=
  exists pre post, s = pre ++ sub ++ post.

(** The length of the shortest word a pattern matches. *)
Fixpoint min_len (r : re) : nat :=
  match r with
  | Eps => 0
  | Chr _ => 1
  | Cls _ => 1
  | Cat r1 r2 => min_len r1 + min_len r2
  | Alt r1 r2 => Nat.min (min_len r1) (min_len r2)
  | Opt _ => 0
  | Star _ => 0
  | Plus _ => 1
  | Grp _ r1 => min_len r1
  end.

(** [matches ic r w c c']: the word [w] belongs to the pattern [r] and
    matching it turns the groups [c] into [c']. *)
Inductive matches (ic : bool) : re -> str -> captures -> captures -> Prop :=
| M_Eps c : matches ic Eps [] c c
| M_Chr a x c : chr_match ic a x = true -> matches ic (Chr a) [x] c c
| M_Cls p x c : p x = true -> matches ic (Cls p) [x] c c
| M_Cat r1 r2 w1 w2 c0 c1 c2 :
    matches ic r1 w1 c0 c1 -> matches ic r2 w2 c1 c2 ->
    matches ic (Cat r1 r2) (w1 ++ w2) c0 c2
| M_AltL r1 r2 w c c' : matches ic r1 w c c' -> matches ic (Alt r1 r2) w c c'
| M_AltR r1 r2 w c c' : matches ic r2 w c c' -> matches ic (Alt r1 r2) w c c'
| M_OptSome r w c c' : matches ic r w c c' -> matches ic (Opt r) w c c'
| M_OptNone r c : matches ic (Opt r) [] c c
| M_Star p w c : forallb p w = true -> matches ic (Star p) w c c
| M_Plus p x w c : p x = true -> forallb p w = true ->
                   matches ic (Plus p) (x :: w) c c
| M_Grp n r w c c' : matches ic r w c c' -> matches ic (Grp n r) w c ((n, w) :: c').

(** ** The walker's iterations *)

(** The position an iteration hands to the next one. *)
Definition advances (pos : nat) (text : str) (st : Step) : Prop :=
  match st with
  | Break => True
  | Continue pos' => pos < pos' <= length text
  | Append _ pos' => pos < pos' <= length text
  end.

(** The block an iteration builds from the opening match, the statement
    body and the result of [extract_proof]. *)
Definition block_of (text : str) (m : Match) (content : str) (content_end : nat)
           (proof_result : option (str * nat)) : StatementBlock :=
  let all_refs :=
    merge_refs (extract_references content)
               (snd (fst (proof_fields proof_result content_end))) in
  mkBlock (normalize_env_type (group_str 1 (m_groups m)))
          (fst (extract_label text (m_end m)))
          (title_of (group 2 (m_groups m)))
          (clean_content content)
          (fst (fst (proof_fields proof_result content_end)))
          (if is_empty all_refs then None else Some all_refs).

(** The spec's measure: the number of non-whitespace characters. *)
Definition nonspace_count (s : str) : nat :=
  length (filter (fun c => negb (is_space c)) s).

(** ** Markers *)

(** The keyword of an opening or a closing marker. *)
Definition kw (is_begin : bool) : str :=
  if is_begin then py "begin" else py "end".

(** [\begin{name}], [\begin{name*}], [\end{name}] or [\end{name*}]. *)
Definition marker_word (is_begin : bool) (name star : str) : str :=
  py "\" ++ kw is_begin ++ py "{" ++ name ++ star ++ py "}".

(** Nothing, or one star. *)
Definition star_suffix (star : str) : Prop := star = [] \/ star = py "*".

(** Between the offsets [i] and [j] the text reads [w], up to case. *)
Definition reads (text : str) (i j : nat) (w : str) : Prop :=
  i <= j <= length text /\ lower (slice text i j) = lower w.

(** The shape the three marker patterns share. *)
Definition marker_re (keyword name : re) : re :=
  Cat (Chr "\") (Cat keyword (Cat (Chr "{") (Cat name
 (Cat (Opt (Chr "*")) (Chr "}"))))).


(** A marker of one of the proof names lies between the offsets [i] and
    [j] of the text. *)
Definition proof_marker (text : str) (is_begin : bool) (i j : nat) : Prop :=
  exists name star,
    In name proof_variants /\ star_suffix star
    /\ reads text i j (marker_word is_begin name star).

(** The first opening proof marker at or after [pos]. *)
Definition first_opening (text : str) (pos i j : nat) : Prop :=
  pos <= i /\ proof_marker text true i j
  /\ forall i' j', pos <= i' < i -> ~ proof_marker text true i' j'.

(** ** Balanced scanning, stated on the markers *)

Section ScanDefinitions.
Variable text : str.
(** [marker is_begin i j]: an opening or closing marker lies between the
    offsets [i] and [j]. *)
Variable marker : bool -> nat -> nat -> Prop.

(** The first marker at or after [pos]. *)
Definition first_marker (pos : nat) (b : bool) (i j : nat) : Prop :=
  pos <= i /\ marker b i j
  /\ forall b' i' j', pos <= i' < i -> ~ marker b' i' j'.

(** No marker at or after [pos]. *)
Definition no_marker (pos : nat) : Prop :=
  forall b i j, pos <= i -> ~ marker b i j.

(** [scan depth pos r]: following the successive markers from [pos], an
    opening one adding 1 to the depth and a closing one taking 1 off,
    [r] is the closing marker at which the depth reaches 0, or [None]
    when the markers run out first. *)
Inductive scan : Z -> nat -> option (nat * nat) -> Prop :=
| scan_exhausted depth pos :
    no_marker pos -> scan depth pos None
| scan_open depth pos i j r :
    first_marker pos true i j -> scan (depth + 1) j r -> scan depth pos r
| scan_close depth pos i j :
    first_marker pos false i j -> (depth - 1 = 0)%Z ->
    scan depth pos (Some (i, j))
| scan_pop depth pos i j r :
    first_marker pos false i j -> (depth - 1 <> 0)%Z ->
    scan (depth - 1) j r -> scan depth pos r.

(** What the scanners return for the outcome [r] of a scan started at
    the content offset [start]. *)
Definition scan_result (start : nat) (r : option (nat * nat)) : str * nat :=
  match r with
  | Some (i, j) => (slice text start i, j)
  | None => (slice_from text start, length text)
  end.

(** The scanners' loop, over a function giving the next marker. *)
Variable next : nat -> option (bool * nat * nat).

Fixpoint scan_loop (fuel : nat) (start : nat) (depth : Z) (current_pos : nat)
  : option (str * nat) :=
  match fuel with
  | 0 => None
  | S fuel' =>
      if (0 <? depth)%Z && (current_pos <? length text) then
        match next current_pos with
        | None => Some (slice_from text start, length text)
        | Some (b, i, j) =>
            let depth' := if b then (depth + 1)%Z else (depth - 1)%Z in
            if (depth' =? 0)%Z then Some (slice text start i, j)
            else scan_loop fuel' start depth' j
        end
      else Some (slice_from text start, length text)
  end.
End ScanDefinitions.

(** ** What the scanners read off a search *)


(** What [extract_proof] reads off its two searches. *)
Definition next_proof (self : LaTeXParser) (text : str) (pos : nat)
  : option (bool * nat * nat) :=
  option_map (fun '(m, b) => (b, m_start m, m_end m))
    (next_proof_marker self text pos).

(** ** The bracketed title *)



(** ** Sample documents *)

Definition doc_A : str := py "\newtheorem{remark}{Remark}".
Definition doc_B : str := py "\begin{remark}abc\end{remark}".



Definition synonym_text : str := py "\begin{proof}abc\end{Dem*}x".


(** The document of [test_parser] (its accented letters written without
    the accent). *)
Definition test_latex : str := py "
\documentclass{article}
\usepackage{amsmath, amsthm}

\newtheorem{theorem}{Teorema}
\newtheorem{lemma}{Lema}
\newtheorem{definition}{Definicion}

\begin{document}

% Esto es un comentario que debe ser ignorado

\begin{definition}[Grupo]
Un \textbf{grupo} es un par $(G, \cdot)$ donde $G$ es un conjunto no vacio
y $\cdot: G \times G \to G$ es una operacion binaria que satisface:
\begin{enumerate}
    \item Asociatividad: $(a \cdot b) \cdot c = a \cdot (b \cdot c)$ para todo $a, b, c \in G$
    \item Elemento neutro: Existe $e \in G$ tal que $e \cdot a = a \cdot e = a$ para todo $a \in G$
    \item Inversos: Para todo $a \in G$, existe $a^{-1} \in G$ tal que $a \cdot a^{-1} = a^{-1} \cdot a = e$
\end{enumerate}
\end{definition}

\vspace{1cm}

\begin{theorem}[Teorema de Lagrange]
Sea $G$ un grupo finito y $H$ un subgrupo de $G$. Entonces el orden de $H$ 
divide al orden de $G$. Es decir:
$$|G| = |H| \cdot [G:H]$$
donde $[G:H]$ denota el indice de $H$ en $G$.
\end{theorem}

\begin{proof}
Sea $\{g_1H, g_2H, \ldots, g_kH\}$ el conjunto de clases laterales izquierdas 
de $H$ en $G$. Estas clases forman una particion de $G$, y cada clase tiene 
exactamente $|H|$ elementos.

Por tanto, $|G| = k \cdot |H|$, donde $k = [G:H]$ es el numero de clases laterales.
\end{proof}

\newpage

\begin{lemma}
Si $G$ es un grupo abeliano, entonces $(ab)^n = a^n b^n$ para todo $a, b \in G$ 
y todo $n \in \mathbb{Z}$.
\end{lemma}

% Este lema no tiene demostracion en el documento

\begin{proposition}[Unicidad del Neutro]
En un grupo $(G, \cdot)$, el elemento neutro es unico.
\end{proposition}

\begin{proof}
Supongamos que $e$ y $e'$ son ambos elementos neutros. Entonces:
$$e = e \cdot e' = e'$$
donde la primera igualdad usa que $e'$ es neutro, y la segunda que $e$ es neutro.
\end{proof}

\end{document}
".

(** ** Vocabulary of the further properties *)

(** Every percent sign of [s] stands right after a backslash. *)
Definition percent_escaped (s : str) : Prop :=
  forall pre post, s = pre ++ "%"%char :: post ->
                   exists pre', pre = pre' ++ ["\"%char].

(** [enumerate(blocks, i)] *)
Fixpoint enumerate_from {A : Type} (i : nat) (l : list A) : list (nat * A) :=
  match l with
  | [] => []
  | x :: l' => (i, x) :: enumerate_from (S i) l'
  end.

(** The number of blocks of kind [t]. *)
Definition count_type (t : str) (blocks : list StatementBlock) : nat :=
  length (filter (fun b => str_eqb (type b) t) blocks).

(** A block on which [validate_blocks] has nothing to say. *)
Definition block_passes (block : StatementBlock) : bool :=
  (negb (needs_proof block) || truthy (proof_latex block))
  && has_math block
  && negb (length (strip (content_latex block)) <? 20)
  && (negb (needs_title block) || truthy (title block)).

(** * Properties *)

(** ** Strings *)

Lemma ascii_eqb_eq (a b : ascii) : ascii_eqb a b = true <-> a = b.
Proof. unfold ascii_eqb. apply Ascii.eqb_eq. Qed.

Lemma str_eqb_eq (a b : str) : str_eqb a b = true <-> a = b.
Proof.
  unfold str_eqb. destruct (str_eq_dec a b); split; congruence.
Qed.

Lemma mem_In (s : str) (l : list str) : mem s l = true <-> In s l.
Proof.
  unfold mem. rewrite existsb_exists. split.
  - intros (x & Hx & He). apply str_eqb_eq in He. now subst.
  - intros H. exists s. split; [assumption | now apply str_eqb_eq].
Qed.

Lemma lower_length (s : str) : length (lower s) = length s.
Proof. unfold lower. apply length_map. Qed.

Lemma lower_app (a b : str) : lower (a ++ b) = lower a ++ lower b.
Proof. unfold lower. apply map_app. Qed.

Lemma is_empty_true (A : Type) (l : list A) : is_empty l = true <-> l = [].
Proof. destruct l; simpl; split; congruence. Qed.

Lemma is_empty_false (A : Type) (l : list A) : is_empty l = false <-> l <> [].
Proof. destruct l; simpl; split; congruence. Qed.

(** [lstrip_by] drops the longest prefix of characters satisfying [p]. *)
Lemma lstrip_by_spec (p : ascii -> bool) (s : str) :
  exists pre, s = pre ++ lstrip_by p s
              /\ forallb p pre = true
              /\ (forall c r, lstrip_by p s = c :: r -> p c = false).
Proof.
  induction s as [|c s IH]; simpl.
  - exists []. repeat split; try reflexivity. discriminate.
  - destruct (p c) eqn:E.
    + destruct IH as (pre & H1 & H2 & H3).
      exists (c :: pre). simpl. rewrite E, H2. repeat split; auto.
      now rewrite <- H1.
    + exists []. simpl. repeat split; auto.
      intros c' r H. now inversion H; subst.
Qed.

(** [rstrip_by] drops the longest suffix of characters satisfying [p]. *)
Lemma rstrip_by_spec (p : ascii -> bool) (s : str) :
  exists suf, s = rstrip_by p s ++ suf
              /\ forallb p suf = true
              /\ (forall r c, rstrip_by p s = r ++ [c] -> p c = false).
Proof.
  unfold rstrip_by.
  destruct (lstrip_by_spec p (rev s)) as (pre & H1 & H2 & H3).
  exists (rev pre). repeat split.
  - rewrite <- rev_app_distr, <- H1. now rewrite rev_involutive.
  - rewrite forallb_forall in *. intros x Hx. apply H2. now apply in_rev.
  - intros r c H. apply (H3 c (rev r)).
    rewrite <- (rev_involutive (lstrip_by p (rev s))), H.
    now rewrite rev_app_distr.
Qed.

Lemma lstrip_by_all (p : ascii -> bool) (s : str) :
  lstrip_by p s = [] <-> forallb p s = true.
Proof.
  induction s as [|c s IH]; simpl.
  - tauto.
  - destruct (p c); simpl; [assumption | split; discriminate].
Qed.

Lemma rstrip_by_nil (p : ascii -> bool) (s : str) :
  rstrip_by p s = [] <-> forallb p s = true.
Proof.
  unfold rstrip_by. split.
  - intros H. apply (f_equal (@rev ascii)) in H. rewrite rev_involutive in H.
    simpl in H. apply lstrip_by_all in H.
    rewrite forallb_forall in *. intros x Hx. apply H. now rewrite <- in_rev.
  - intros H. assert (E : lstrip_by p (rev s) = []).
    { apply lstrip_by_all. rewrite forallb_forall in *.
      intros x Hx. apply H. now rewrite in_rev. }
    now rewrite E.
Qed.

(** [s.strip()] is empty exactly when [s] is all whitespace. *)
Lemma strip_empty (s : str) : strip s = [] <-> forallb is_space s = true.
Proof.
  unfold strip. rewrite rstrip_by_nil. split.
  - intros H. destruct (lstrip_by_spec is_space s) as (pre & H1 & H2 & _).
    rewrite H1, forallb_app, H2, H. reflexivity.
  - intros H. destruct (lstrip_by_spec is_space s) as (pre & H1 & _ & _).
    rewrite H1, forallb_app in H. now apply andb_true_iff in H.
Qed.

(** Case-sensitive [starts_with] is the prefix relation. *)
Lemma starts_with_exact (w s : str) :
  starts_with false w s = true <-> exists rest, s = w ++ rest.
Proof.
  revert s. induction w as [|c w IH]; intros s; simpl.
  - split; [intros _; now exists s | reflexivity].
  - destruct s as [|x s]; simpl.
    + split; [discriminate | intros (r & H); discriminate].
    + rewrite andb_true_iff, IH, ascii_eqb_eq. split.
      * intros (-> & r & ->). now exists r.
      * intros (r & H). inversion H; subst. split; [reflexivity | now exists r].
Qed.

Lemma contains_spec (sub s : str) : contains sub s = true <-> substring sub s.
Proof.
  unfold substring. induction s as [|c s IH]; simpl.
  - rewrite orb_false_r, starts_with_exact. split.
    + intros (r & H). now exists [], r.
    + intros (pre & post & H). destruct pre; simpl in H.
      * now exists post.
      * discriminate.
  - rewrite orb_true_iff, starts_with_exact, IH. split.
    + intros [(r & H) | (pre & post & H)].
      * now exists [], r.
      * exists (c :: pre), post. simpl. now rewrite H.
    + intros (pre & post & H). destruct pre as [|x pre]; simpl in H.
      * left. now exists post.
      * right. inversion H. now exists pre, post.
Qed.

(** ** The environment-name normaliser *)

Lemma contains_false (sub s : str) : contains sub s = false <-> ~ substring sub s.
Proof.
  rewrite <- contains_spec. destruct (contains sub s); split; congruence.
Qed.

Lemma rstrip_star_spec (s : str) :
  exists stars, s = rstrip_star s ++ stars
                /\ Forall (eq "*"%char) stars
                /\ (forall r c, rstrip_star s = r ++ [c] -> c <> "*"%char).
Proof.
  destruct (rstrip_by_spec is_star s) as (suf & H1 & H2 & H3).
  exists suf. repeat split; auto.
  - rewrite forallb_forall in H2. apply Forall_forall. intros x Hx.
    apply H2 in Hx. unfold is_star in Hx. apply ascii_eqb_eq in Hx. congruence.
  - intros r c H ->. apply H3 in H. discriminate.
Qed.

(** A name that carries at most one trailing star loses exactly that
    star. *)
Lemma rstrip_star_one (s : str) :
  (forall r, s <> r ++ py "**") ->
  (forall r, s = r ++ py "*" -> rstrip_star s = r)
  /\ ((forall r, s <> r ++ py "*") -> rstrip_star s = s).
Proof.
  intros H2.
  destruct (rstrip_star_spec s) as (stars & E & Hs & Hl).
  assert (Hstars : stars = [] \/ stars = py "*").
  { destruct stars as [|a [|b stars]]; auto.
    - inversion Hs; subst. now right.
    - exfalso. destruct (exists_last (l := a :: b :: stars)) as (q & z & Eq);
        [discriminate|].
      destruct (exists_last (l := q)) as (q' & y & Eq').
      { intros ->. destruct stars; discriminate. }
      subst q. rewrite Eq in Hs. rewrite !Forall_app in Hs.
      destruct Hs as [[_ Hy] Hz]. inversion Hy; inversion Hz; subst.
      apply (H2 (rstrip_star s ++ q')).
      rewrite E at 1. rewrite Eq. now rewrite <- !app_assoc. }
  split.
  - intros r Hr. destruct Hstars as [-> | ->].
    + rewrite app_nil_r in E. exfalso.
      apply (Hl r "*"%char); [rewrite <- E; exact Hr | reflexivity].
    + rewrite Hr in E at 1. now apply app_inj_tail in E.
  - intros H1. destruct Hstars as [-> | ->].
    + now rewrite app_nil_r in E.
    + exfalso. now apply (H1 (rstrip_star s)).
Qed.

Lemma variants_canonical (l k : str) :
  dict_get l ENVIRONMENT_VARIANTS = Some k -> In k MATH_ENVIRONMENTS.
Proof.
  unfold ENVIRONMENT_VARIANTS, MATH_ENVIRONMENTS. simpl.
  repeat (destruct (str_eqb l _);
          [intros H; inversion H; subst; simpl; tauto|]).
  discriminate.
Qed.

(** C6.  [normalize_env_type] lowercases the raw name and removes its
    trailing star (every trailing star, when there are several); on the
    resulting name [l]: an alias maps to its canonical kind; otherwise a
    canonical name is returned as it is; otherwise the substring tests
    are applied in the fixed order theorem ([th] or [teo]), definition
    ([def]), lemma ([lem]), proposition ([prop]), corollary ([cor]), a
    later test being reached only when the earlier ones fail; otherwise
    [l] itself is returned.  A name with several trigger fragments gets
    the kind of the first test in that order. *)
Theorem normalize_env_type_priority (raw : str) :
  let l := rstrip_star (lower raw) in
  let th := substring (py "th") l \/ substring (py "teo") l in
  let def := substring (py "def") l in
  let lem := substring (py "lem") l in
  let prop := substring (py "prop") l in
  let cor := substring (py "cor") l in
  (exists stars, lower raw = l ++ stars /\ Forall (eq "*"%char) stars
                 /\ (forall r c, l = r ++ [c] -> c <> "*"%char))
  /\ ((forall r, lower raw <> r ++ py "**") ->
      (forall r, lower raw = r ++ py "*" -> l = r)
      /\ ((forall r, lower raw <> r ++ py "*") -> l = lower raw))
  /\ (forall k, dict_get l ENVIRONMENT_VARIANTS = Some k ->
                normalize_env_type raw = k /\ In k MATH_ENVIRONMENTS)
  /\ (dict_get l ENVIRONMENT_VARIANTS = None ->
      (In l MATH_ENVIRONMENTS -> normalize_env_type raw = l)
      /\ (~ In l MATH_ENVIRONMENTS ->
          (th -> normalize_env_type raw = py "theorem")
          /\ (~ th -> def -> normalize_env_type raw = py "definition")
          /\ (~ th -> ~ def -> lem -> normalize_env_type raw = py "lemma")
          /\ (~ th -> ~ def -> ~ lem -> prop ->
              normalize_env_type raw = py "proposition")
          /\ (~ th -> ~ def -> ~ lem -> ~ prop -> cor ->
              normalize_env_type raw = py "corollary")
          /\ (~ th -> ~ def -> ~ lem -> ~ prop -> ~ cor ->
              normalize_env_type raw = l)))
  /\ normalize_env_type (py "mydefth") = py "theorem".
Proof.
  intros l th def lem prop cor.
  split; [apply rstrip_star_spec|].
  split; [apply rstrip_star_one|].
  split.
  { intros k Hk. split; [|now apply variants_canonical with l].
    unfold normalize_env_type. fold l. now rewrite Hk. }
  split; [|reflexivity].
  intros Hnone. unfold normalize_env_type. fold l. rewrite Hnone.
  split.
  { intros Hin. apply mem_In in Hin. now rewrite Hin. }
  intros Hnot.
  assert (Hm : mem l MATH_ENVIRONMENTS = false).
  { destruct (mem l MATH_ENVIRONMENTS) eqn:E; auto.
    apply mem_In in E. contradiction. }
  rewrite Hm. subst th def lem prop cor.
  destruct (contains (py "th") l) eqn:Eth;
    [apply contains_spec in Eth | apply contains_false in Eth];
  (destruct (contains (py "teo") l) eqn:Eteo;
    [apply contains_spec in Eteo | apply contains_false in Eteo]);
  (destruct (contains (py "def") l) eqn:Edef;
    [apply contains_spec in Edef | apply contains_false in Edef]);
  (destruct (contains (py "lem") l) eqn:Elem;
    [apply contains_spec in Elem | apply contains_false in Elem]);
  (destruct (contains (py "prop") l) eqn:Eprop;
    [apply contains_spec in Eprop | apply contains_false in Eprop]);
  (destruct (contains (py "cor") l) eqn:Ecor;
    [apply contains_spec in Ecor | apply contains_false in Ecor]);
  simpl; repeat split; intros; try reflexivity; tauto.
Qed.

Lemma normalize_env_type_priority_witness :
  normalize_env_type (py "Teorema*") = py "theorem"
  /\ normalize_env_type (py "Lemma") = py "lemma"
  /\ normalize_env_type (py "mythm") = py "theorem"
  /\ normalize_env_type (py "Remark*") = py "remark".
Proof.
  split; [|split; [|split]].
  - destruct (normalize_env_type_priority (py "Teorema*")) as (_ & _ & H & _).
    exact (proj1 (H (py "theorem") eq_refl)).
  - destruct (normalize_env_type_priority (py "Lemma")) as (_ & _ & _ & H & _).
    destruct (H eq_refl) as [H1 _]. apply H1. apply mem_In. reflexivity.
  - destruct (normalize_env_type_priority (py "mythm")) as (_ & _ & _ & H & _).
    destruct (H eq_refl) as [_ H2]. destruct H2 as (H2 & _).
    + intros Hin. apply mem_In in Hin. discriminate.
    + apply H2. left. exists (py "my"), (py "m"). reflexivity.
  - destruct (normalize_env_type_priority (py "Remark*")) as (_ & _ & _ & H & _).
    destruct (H eq_refl) as [_ H2].
    destruct H2 as (_ & _ & _ & _ & _ & H2).
    + intros Hin. apply mem_In in Hin. discriminate.
    + apply H2.
      * intros [Hc|Hc]; apply contains_spec in Hc; discriminate.
      * intros Hc; apply contains_spec in Hc; discriminate.
      * intros Hc; apply contains_spec in Hc; discriminate.
      * intros Hc; apply contains_spec in Hc; discriminate.
      * intros Hc; apply contains_spec in Hc; discriminate.
Defined.

(** ** The matcher: what a match consumes *)

Lemma star_loop_bound (A : Type) (p : ascii -> bool) (s : str)
      (k : str -> option A) (a : A) :
  star_loop p s k = Some a ->
  exists s', k s' = Some a /\ length s' <= length s.
Proof.
  induction s as [|x s IH]; simpl; intros H.
  - now exists [].
  - destruct (p x).
    + destruct (star_loop p s k) eqn:E.
      * inversion H; subst. destruct (IH eq_refl) as (s' & Hk & Hl).
        exists s'. split; [assumption | lia].
      * exists (x :: s). split; [assumption | reflexivity].
    + exists (x :: s). split; [assumption | reflexivity].
Qed.

Lemma rmatch_bound (A : Type) (ic : bool) (r : re) :
  forall (s : str) (caps : captures) (k : str -> captures -> option A) (a : A),
    rmatch ic r s caps k = Some a ->
    exists s' caps', k s' caps' = Some a /\ length s' + min_len r <= length s.
Proof.
  induction r as [ |c|p|r1 IH1 r2 IH2|r1 IH1 r2 IH2|r1 IH1|p|p|n r1 IH1];
    intros s caps k a H; simpl in *.
  - exists s, caps. split; [assumption | lia].
  - destruct s as [|x s]; [discriminate|].
    destruct (chr_match ic c x); [|discriminate].
    exists s, caps. simpl. split; [assumption | lia].
  - destruct s as [|x s]; [discriminate|].
    destruct (p x); [|discriminate].
    exists s, caps. simpl. split; [assumption | lia].
  - apply IH1 in H. destruct H as (s1 & caps1 & H & L1).
    apply IH2 in H. destruct H as (s2 & caps2 & H & L2).
    exists s2, caps2. split; [assumption | lia].
  - destruct (rmatch ic r1 s caps k) eqn:E.
    + inversion H; subst. apply IH1 in E.
      destruct E as (s' & caps' & Hk & L). exists s', caps'.
      split; [assumption | lia].
    + apply IH2 in H. destruct H as (s' & caps' & Hk & L). exists s', caps'.
      split; [assumption | lia].
  - destruct (rmatch ic r1 s caps k) eqn:E.
    + inversion H; subst. apply IH1 in E.
      destruct E as (s' & caps' & Hk & L). exists s', caps'.
      split; [assumption | lia].
    + exists s, caps. split; [assumption | lia].
  - apply star_loop_bound in H. destruct H as (s' & Hk & L).
    exists s', caps. split; [assumption | lia].
  - destruct s as [|x s]; [discriminate|].
    destruct (p x); [|discriminate].
    apply star_loop_bound in H. destruct H as (s' & Hk & L).
    exists s', caps. simpl. split; [assumption | lia].
  - apply IH1 in H. destruct H as (s' & caps' & Hk & L).
    eexists s', _. split; [eassumption | lia].
Qed.

Lemma match_at_bound (ic : bool) (r : re) (s : str) (n : nat) (caps : captures) :
  match_at ic r s = Some (n, caps) -> min_len r <= n /\ n <= length s.
Proof.
  unfold match_at. intros H. apply rmatch_bound in H.
  destruct H as (s' & caps' & H & L). inversion H; subst. lia.
Qed.

Lemma search_from_bound (ic : bool) (r : re) (s : str) :
  forall (off : nat) (m : Match),
    search_from ic r s off = Some m ->
    off <= m_start m /\ m_start m + min_len r <= m_end m
    /\ m_end m <= off + length s.
Proof.
  induction s as [|x s IH]; intros off m H; simpl in H.
  - destruct (match_at ic r []) as [[n caps]|] eqn:E; [|discriminate].
    inversion H; subst; simpl. apply match_at_bound in E. simpl in E. lia.
  - destruct (match_at ic r (x :: s)) as [[n caps]|] eqn:E.
    + inversion H; subst; simpl. apply match_at_bound in E. simpl in E. lia.
    + apply IH in H. simpl. lia.
Qed.

(** A match of a pattern that cannot match the empty word lies inside
    the text, at or after the position searched from, and is not
    empty. *)
Lemma re_search_bound (ic : bool) (r : re) (text : str) (pos : nat) (m : Match) :
  1 <= min_len r ->
  re_search ic r text pos = Some m ->
  pos <= m_start m /\ m_start m < m_end m /\ m_end m <= length text.
Proof.
  unfold re_search. intros Hr H. apply search_from_bound in H.
  rewrite length_skipn in H. lia.
Qed.

Lemma min_len_env_pattern (names : list str) : 1 <= min_len (env_pattern_of names).
Proof. simpl. lia. Qed.

Lemma min_len_proof_pattern (kw : str) : 1 <= min_len (proof_pattern_of kw).
Proof. simpl. lia. Qed.

Lemma min_len_end_pattern (env_base : str) : 1 <= min_len (end_pattern env_base).
Proof. simpl. lia. Qed.

(** ** Termination of the scanning loops *)

Lemma extract_environment_loop_total (text : str) (start_pos : nat) (pat : re) :
  1 <= min_len pat ->
  forall (fuel : nat) (depth : Z) (current_pos : nat),
    current_pos <= length text ->
    length text - current_pos < fuel ->
    exists content content_end,
      extract_environment_loop fuel text start_pos pat depth current_pos
      = Some (content, content_end)
      /\ current_pos <= content_end <= length text.
Proof.
  intros Hp. induction fuel as [|fuel IH]; intros depth cur Hc Hf; [lia|].
  simpl.
  destruct ((0 <? depth)%Z && (cur <? length text)) eqn:G.
  - destruct (re_search true pat text cur) as [m|] eqn:Hsr.
    + apply re_search_bound in Hsr; [|assumption].
      match goal with |- context [if ?c then _ else _] => destruct c end.
      * eexists _, _. split; [reflexivity | lia].
      * destruct (IH (if str_eqb (lower (group_str 1 (m_groups m))) (py "begin")
                      then (depth + 1)%Z else (depth - 1)%Z) (m_end m))
          as (c & e & H & L); [lia | lia |].
        exists c, e. split; [assumption | lia].
    + eexists _, _. split; [reflexivity | lia].
  - eexists _, _. split; [reflexivity | lia].
Qed.

Lemma extract_environment_total (text : str) (start_pos : nat) (env_type : str) :
  start_pos <= length text ->
  exists content content_end,
    extract_environment text start_pos env_type = Some (content, content_end)
    /\ start_pos <= content_end <= length text.
Proof.
  intros H. unfold extract_environment.
  apply extract_environment_loop_total; [apply min_len_end_pattern | lia | lia].
Qed.

Lemma next_proof_marker_bound (c : list str) (text : str) (pos : nat)
      (m : Match) (b : bool) :
  next_proof_marker (init c) text pos = Some (m, b) ->
  pos <= m_start m /\ m_start m < m_end m /\ m_end m <= length text.
Proof.
  unfold next_proof_marker, init. cbn [proof_start_pattern proof_end_pattern].
  destruct (re_search true (proof_pattern_of (py "begin")) text pos) as [mb|] eqn:B;
    destruct (re_search true (proof_pattern_of (py "end")) text pos) as [me|] eqn:E;
    try discriminate.
  - apply re_search_bound in B; [|apply min_len_proof_pattern].
    apply re_search_bound in E; [|apply min_len_proof_pattern].
    destruct (m_start mb <? m_start me); intros H; inversion H; subst; lia.
  - apply re_search_bound in B; [|apply min_len_proof_pattern].
    intros H; inversion H; subst; lia.
  - apply re_search_bound in E; [|apply min_len_proof_pattern].
    intros H; inversion H; subst; lia.
Qed.

Lemma extract_proof_loop_total (c : list str) (text : str) (pcs : nat) :
  forall (fuel : nat) (depth : Z) (current_pos : nat),
    current_pos <= length text ->
    length text - current_pos < fuel ->
    exists content proof_end,
      extract_proof_loop fuel (init c) text pcs depth current_pos
      = Some (content, proof_end)
      /\ current_pos <= proof_end <= length text.
Proof.
  induction fuel as [|fuel IH]; intros depth cur Hc Hf; [lia|].
  simpl.
  destruct ((0 <? depth)%Z && (cur <? length text)) eqn:G.
  - destruct (next_proof_marker (init c) text cur) as [[m b]|] eqn:Hsr.
    + apply next_proof_marker_bound in Hsr. destruct b.
      * destruct (IH (depth + 1)%Z (m_end m)) as (x & e & H & L); [lia | lia |].
        exists x, e. split; [assumption | lia].
      * destruct (depth - 1 =? 0)%Z.
        -- eexists _, _. split; [reflexivity | lia].
        -- destruct (IH (depth - 1)%Z (m_end m)) as (x & e & H & L); [lia | lia |].
           exists x, e. split; [assumption | lia].
    + eexists _, _. split; [reflexivity | lia].
  - eexists _, _. split; [reflexivity | lia].
Qed.

Lemma extract_proof_total (c : list str) (text : str) (start_pos : nat) :
  exists proof_result,
    extract_proof (init c) text start_pos = Some proof_result
    /\ forall content proof_end,
         proof_result = Some (content, proof_end) ->
         start_pos < proof_end <= length text.
Proof.
  unfold extract_proof.
  destruct (re_search true (proof_start_pattern (init c))
              (slice_from text start_pos) 0) as [m|] eqn:Hsr.
  - apply re_search_bound in Hsr; [|apply min_len_proof_pattern].
    unfold slice_from in Hsr. rewrite length_skipn in Hsr.
    destruct (negb (is_empty (strip (slice (slice_from text start_pos) 0 (m_start m))))).
    + exists None. split; [reflexivity | discriminate].
    + destruct (extract_proof_loop_total c text (start_pos + m_end m)
                  (S (length text)) 1%Z (start_pos + m_end m))
        as (x & e & H & L); [lia | lia |].
      rewrite H. exists (Some (x, e)). split; [reflexivity|].
      intros ? ? E. inversion E; subst. lia.
  - exists None. split; [reflexivity | discriminate].
Qed.

Lemma extract_label_bound (text : str) (start_pos : nat) :
  start_pos <= length text ->
  start_pos <= snd (extract_label text start_pos) <= length text.
Proof.
  intros H. unfold extract_label.
  destruct (match_at false label_pattern (slice text start_pos (start_pos + 200)))
    as [[n caps]|] eqn:E; simpl; [|lia].
  apply match_at_bound in E. unfold slice in E.
  rewrite length_firstn, length_skipn in E. lia.
Qed.

(** ** Termination of the walker *)

Lemma parse_step_progress (c : list str) (text : str) (pos : nat) :
  pos <= length text ->
  exists st, parse_step (init c) text pos = Some st /\ advances pos text st.
Proof.
  intros Hp. unfold parse_step.
  destruct (re_search true (env_pattern (init c)) text pos) as [m|] eqn:Hsr.
  2:{ exists Break. split; [reflexivity | exact I]. }
  apply re_search_bound in Hsr; [|apply min_len_env_pattern].
  pose proof (extract_label_bound text (m_end m)) as Hl.
  destruct (extract_label text (m_end m)) as [lab cs]. simpl in Hl.
  destruct (extract_environment_total text cs (group_str 1 (m_groups m)))
    as (content & ce & He & Hce); [lia|].
  rewrite He.
  destruct (is_empty (clean_content content)
            || (length (strip (clean_content content)) <? 3)).
  { eexists. split; [reflexivity | simpl; lia]. }
  destruct (extract_proof_total c text ce) as (pr & Hpr & Hb).
  rewrite Hpr. unfold proof_fields. destruct pr as [[pc pe]|].
  - specialize (Hb pc pe eq_refl).
    destruct (negb (is_empty (clean_content pc))
              && (length (strip (clean_content pc)) <? 3));
      (eexists; split; [reflexivity | simpl; lia]).
  - eexists. split; [reflexivity | simpl; lia].
Qed.

Lemma parse_loop_total (c : list str) (text : str) :
  forall (n pos : nat) (blocks : list StatementBlock),
    pos <= length text ->
    length text - pos <= n ->
    exists result,
      forall fuel, n < fuel ->
                   parse_loop fuel (init c) text pos blocks = Some result.
Proof.
  induction n as [|n IH]; intros pos blocks Hp Hn.
  - exists blocks. intros [|fuel] Hf; [lia|]. simpl.
    replace (pos <? length text) with false; [reflexivity|].
    symmetry. apply Nat.ltb_ge. lia.
  - destruct (pos <? length text) eqn:G.
    + destruct (parse_step_progress c text pos Hp) as (st & Hst & Hadv).
      destruct st as [|pos'|block pos']; simpl in Hadv.
      * exists blocks. intros [|fuel] Hf; [lia|]. simpl. now rewrite G, Hst.
      * destruct (IH pos' blocks) as (r & Hr); [lia | lia |].
        exists r. intros [|fuel] Hf; [lia|]. simpl. rewrite G, Hst.
        apply Hr. lia.
      * destruct (IH pos' (blocks ++ [block])) as (r & Hr); [lia | lia |].
        exists r. intros [|fuel] Hf; [lia|]. simpl. rewrite G, Hst.
        apply Hr. lia.
    + exists blocks. intros [|fuel] Hf; [lia|]. simpl. now rewrite G.
Qed.

Lemma registry_for_init (c : list str) (text : str) (auto : bool) :
  exists c', registry_for (init c) text auto = init c'.
Proof.
  unfold registry_for. destruct auto; [|now exists c].
  destruct (negb (is_empty (detect_custom_environments text)));
    [now eexists | now exists c].
Qed.

(** C9.  For every text and every parser built by the constructor,
    [parse_text] returns a list of blocks: the walker's loop ends within
    [len(text) + 1] iterations (more fuel changes nothing), no inner
    scan runs out, and every iteration that goes on leaves the position
    strictly further and inside the text.  A document in which no
    statement opening is recognised gives the empty list, and a
    statement or proof whose closing marker is missing is cut at the
    end of the document. *)
Theorem parse_text_terminates (custom : list str) (text : str) (auto : bool) :
  (exists blocks,
      fst (parse_text (init custom) text auto) = Some blocks
      /\ forall fuel,
        length (remove_comments text) < fuel ->
        parse_loop fuel
          (registry_for (init custom) (remove_comments text) auto)
          (remove_comments text) 0 [] = Some blocks)
  /\ (forall pos, pos <= length text ->
        exists st, parse_step (init custom) text pos = Some st
                   /\ advances pos text st)
  /\ (re_search true
        (env_pattern (registry_for (init custom) (remove_comments text) auto))
        (remove_comments text) 0 = None ->
      fst (parse_text (init custom) text auto) = Some [])
  /\ (forall start_pos env_type,
        start_pos <= length text ->
        re_search true (end_pattern (rstrip_star env_type)) text start_pos = None ->
        extract_environment text start_pos env_type
        = Some (slice_from text start_pos, length text))
  /\ (forall pcs,
        pcs <= length text ->
        next_proof_marker (init custom) text pcs = None ->
        extract_proof_loop (S (length text)) (init custom) text pcs 1 pcs
        = Some (slice_from text pcs, length text)).
Proof.
  split; [|split; [|split; [|split]]].
  - unfold parse_text. cbn [fst].
    destruct (registry_for_init custom (remove_comments text) auto) as (c' & ->).
    destruct (parse_loop_total c' (remove_comments text)
                (length (remove_comments text)) 0 [])
      as (r & Hr); [lia | lia |].
    exists r. split; [apply Hr; lia | exact Hr].
  - intros pos Hp. now apply parse_step_progress.
  - intros H. unfold parse_text. cbn [fst]. cbn [parse_loop].
    destruct (0 <? length (remove_comments text)); [|reflexivity].
    unfold parse_step. now rewrite H.
  - intros start_pos env_type Hs H. unfold extract_environment.
    cbn [extract_environment_loop]. rewrite H.
    now destruct ((0 <? 1)%Z && (start_pos <? length text)).
  - intros pcs Hs H. cbn [extract_proof_loop]. rewrite H.
    now destruct ((0 <? 1)%Z && (pcs <? length text)).
Qed.

Lemma parse_text_terminates_witness :
  extract_environment (py "\begin{theorem}abc") 15 (py "theorem")
  = Some (py "abc", 18)
  /\ fst (parse_text (init []) (py "no statement here") true) = Some [].
Proof.
  split.
  - apply (proj1 (proj2 (proj2 (proj2
      (parse_text_terminates [] (py "\begin{theorem}abc") true)))) 15
      (py "theorem")).
    + vm_compute. lia.
    + vm_compute. reflexivity.
  - apply (proj1 (proj2 (proj2
      (parse_text_terminates [] (py "no statement here") true)))).
    vm_compute. reflexivity.
Defined.

(** ** One iteration of the walker, taken apart *)

Lemma short_content_test (content_clean : str) :
  is_empty content_clean || (length (strip content_clean) <? 3)
  = (length (strip content_clean) <? 3).
Proof. destruct content_clean; reflexivity. Qed.

Lemma parse_step_inv (self : LaTeXParser) (text : str) (pos : nat) (st : Step) :
  parse_step self text pos = Some st ->
  match re_search true (env_pattern self) text pos with
  | None => st = Break
  | Some m =>
      exists content content_end,
        extract_environment text (snd (extract_label text (m_end m)))
          (group_str 1 (m_groups m)) = Some (content, content_end)
        /\ if length (strip (clean_content content)) <? 3
           then st = Continue content_end
           else exists proof_result,
               extract_proof self text content_end = Some proof_result
               /\ st = Append (block_of text m content content_end proof_result)
                         (snd (proof_fields proof_result content_end))
  end.
Proof.
  unfold parse_step.
  destruct (re_search true (env_pattern self) text pos) as [m|];
    [|intros H; now inversion H].
  destruct (extract_label text (m_end m)) as [lab cs] eqn:El. cbn [snd].
  destruct (extract_environment text cs (group_str 1 (m_groups m)))
    as [[content ce]|]; [|discriminate].
  rewrite short_content_test. intros H. exists content, ce.
  split; [reflexivity|].
  destruct (length (strip (clean_content content)) <? 3).
  - now inversion H.
  - destruct (extract_proof self text ce) as [pr|]; [|discriminate].
    exists pr. split; [reflexivity|].
    unfold block_of. rewrite El. cbn [fst].
    destruct (proof_fields pr ce) as [[pcl prefs] np]. cbn [fst snd].
    now inversion H.
Qed.

Lemma parse_loop_Forall (P : StatementBlock -> Prop) (self : LaTeXParser)
      (text : str) :
  (forall pos b pos', parse_step self text pos = Some (Append b pos') -> P b) ->
  forall (fuel pos : nat) (blocks result : list StatementBlock),
    Forall P blocks ->
    parse_loop fuel self text pos blocks = Some result ->
    Forall P result.
Proof.
  intros HP. induction fuel as [|fuel IH]; intros pos blocks result Hb H;
    simpl in H; [discriminate|].
  destruct (pos <? length text); [|now inversion H; subst].
  destruct (parse_step self text pos) as [[|pos'|b pos']|] eqn:E;
    try discriminate.
  - now inversion H; subst.
  - now apply IH in H.
  - apply IH in H; [assumption|]. apply Forall_app. split; [assumption|].
    constructor; [|constructor]. now apply HP in E.
Qed.

(** ** Minimum-content filtering *)

(** C2 (as amended).  A block is emitted exactly when the statement's
    normalized content, trimmed, is at least 3 characters long, the
    whitespace inside it counting: every emitted block has such a
    content, a statement whose trimmed normalized body is shorter than 3
    characters is passed over (the walker resuming at its end), and one
    of 3 characters or more is emitted with that content. *)
Theorem parse_text_min_content :
  (forall self text pos b pos',
      parse_step self text pos = Some (Append b pos') ->
      3 <= length (strip (content_latex b)))
  /\ (forall self text auto blocks,
         fst (parse_text self text auto) = Some blocks ->
         Forall (fun b => 3 <= length (strip (content_latex b))) blocks)
  /\ (forall custom text pos m content content_end,
         pos <= length text ->
         re_search true (env_pattern (init custom)) text pos = Some m ->
         extract_environment text (snd (extract_label text (m_end m)))
           (group_str 1 (m_groups m)) = Some (content, content_end) ->
         (length (strip (clean_content content)) < 3 ->
          parse_step (init custom) text pos = Some (Continue content_end))
         /\ (3 <= length (strip (clean_content content)) ->
             exists b pos',
               parse_step (init custom) text pos = Some (Append b pos')
               /\ content_latex b = clean_content content)).
Proof.
  assert (Hstep : forall self text pos b pos',
             parse_step self text pos = Some (Append b pos') ->
             3 <= length (strip (content_latex b))).
  { intros self text pos b pos' H. apply parse_step_inv in H.
    destruct (re_search true (env_pattern self) text pos) as [m|];
      [|discriminate].
    destruct H as (content & ce & _ & H).
    destruct (length (strip (clean_content content)) <? 3) eqn:E;
      [discriminate|].
    destruct H as (pr & _ & H). inversion H; subst. cbn [content_latex block_of].
    apply Nat.ltb_ge in E. exact E. }
  split; [exact Hstep|]. split.
  - intros self text auto blocks H. unfold parse_text in H. cbn [fst] in H.
    eapply parse_loop_Forall; [|constructor|exact H].
    intros pos b pos' Hs. now apply Hstep in Hs.
  - intros custom text pos m content ce Hp Hm He.
    destruct (parse_step_progress custom text pos Hp) as (st & Hst & _).
    pose proof (parse_step_inv _ _ _ _ Hst) as Hi. rewrite Hm in Hi.
    destruct Hi as (content' & ce' & He' & Hi). rewrite He in He'.
    inversion He'; subst content' ce'. split.
    + intros Hl. apply Nat.ltb_lt in Hl. rewrite Hl in Hi. now subst st.
    + intros Hl. apply Nat.ltb_ge in Hl. rewrite Hl in Hi.
      destruct Hi as (pr & _ & ->). eexists _, _.
      split; [exact Hst | reflexivity].
Qed.

Lemma parse_text_min_content_witness :
  Forall (fun b => 3 <= length (strip (content_latex b)))
    [mkBlock (py "lemma") None None (py "x y") None None].
Proof.
  apply (proj1 (proj2 parse_text_min_content) (init [])
           (py "\begin{lemma}x y\end{lemma}\begin{lemma}xy\end{lemma}") true).
  vm_compute. reflexivity.
Defined.

(** C2 as stated fails: the statement body [a b] has two non-whitespace
    characters and is emitted all the same. *)
Lemma parse_text_keeps_two_nonspace :
  option_map (map (fun b => (content_latex b, nonspace_count (content_latex b))))
    (fst (parse_text (init []) (py "\begin{theorem}a b\end{theorem}") true))
  = Some [(py "a b", 2)].
Proof. vm_compute. reflexivity. Qed.

Lemma parse_step_append_inv (self : LaTeXParser) (text : str) (pos : nat)
      (b : StatementBlock) (pos' : nat) :
  parse_step self text pos = Some (Append b pos') ->
  exists m content content_end proof_result,
    re_search true (env_pattern self) text pos = Some m
    /\ extract_environment text (snd (extract_label text (m_end m)))
         (group_str 1 (m_groups m)) = Some (content, content_end)
    /\ 3 <= length (strip (clean_content content))
    /\ extract_proof self text content_end = Some proof_result
    /\ b = block_of text m content content_end proof_result
    /\ pos' = snd (proof_fields proof_result content_end).
Proof.
  intros H. apply parse_step_inv in H.
  destruct (re_search true (env_pattern self) text pos) as [m|]; [|discriminate].
  destruct H as (content & ce & He & H).
  destruct (length (strip (clean_content content)) <? 3) eqn:E; [discriminate|].
  destruct H as (pr & Hpr & H). inversion H; subst.
  exists m, content, ce, pr. apply Nat.ltb_ge in E. repeat split; assumption.
Qed.

(** ** The proof field *)

(** C3 (as amended).  In every emitted block a proof field that holds a
    non-empty text holds one of at least 3 characters once trimmed, the
    whitespace inside it counting.  An associated proof whose normalized
    content is not empty and is shorter than 3 characters after trimming
    leaves the field [None], the walker still resuming after the proof's
    closing marker; one of 3 characters or more is attached; and a
    statement with no associated proof has [None]. *)
Theorem parse_text_proof_field :
  (forall self text pos b pos' pr,
      parse_step self text pos = Some (Append b pos') ->
      proof_latex b = Some pr -> pr <> [] -> 3 <= length (strip pr))
  /\ (forall self text pos b pos',
         parse_step self text pos = Some (Append b pos') ->
         exists m content content_end proof_result,
           re_search true (env_pattern self) text pos = Some m
           /\ extract_environment text (snd (extract_label text (m_end m)))
                (group_str 1 (m_groups m)) = Some (content, content_end)
           /\ extract_proof self text content_end = Some proof_result
           /\ proof_latex b = fst (fst (proof_fields proof_result content_end))
           /\ pos' = snd (proof_fields proof_result content_end))
  /\ (forall proof_content proof_end content_end,
         clean_content proof_content <> [] ->
         length (strip (clean_content proof_content)) < 3 ->
         proof_fields (Some (proof_content, proof_end)) content_end
         = (None, [], proof_end))
  /\ (forall proof_content proof_end content_end,
         3 <= length (strip (clean_content proof_content)) ->
         proof_fields (Some (proof_content, proof_end)) content_end
         = (Some (clean_content proof_content),
            extract_references proof_content, proof_end))
  /\ (forall content_end, proof_fields None content_end = (None, [], content_end)).
Proof.
  split; [|split; [|split; [|split]]].
  - intros self text pos b pos' pr H Hp Hne.
    apply parse_step_append_inv in H.
    destruct H as (m & content & ce & res & _ & _ & _ & _ & -> & _).
    cbn [proof_latex block_of] in Hp. unfold proof_fields in Hp.
    destruct res as [[pc pe]|]; [|discriminate].
    destruct (negb (is_empty (clean_content pc))
              && (length (strip (clean_content pc)) <? 3)) eqn:E;
      [discriminate|].
    cbn [fst] in Hp. inversion Hp; subst pr.
    apply andb_false_iff in E. destruct E as [E|E].
    + apply negb_false_iff, is_empty_true in E. contradiction.
    + now apply Nat.ltb_ge in E.
  - intros self text pos b pos' H. apply parse_step_append_inv in H.
    destruct H as (m & content & ce & res & H1 & H2 & _ & H3 & -> & ->).
    exists m, content, ce, res. repeat split; assumption.
  - intros pc pe ce Hne Hl. unfold proof_fields.
    apply is_empty_false in Hne. apply Nat.ltb_lt in Hl. now rewrite Hne, Hl.
  - intros pc pe ce Hl. unfold proof_fields.
    apply Nat.ltb_ge in Hl. now rewrite Hl, andb_false_r.
  - reflexivity.
Qed.

Lemma parse_text_proof_field_witness :
  proof_fields (Some (py " x ", 40)) 20 = (None, [], 40)
  /\ proof_fields (Some (py " x y ", 40)) 20 = (Some (py "x y"), [], 40).
Proof.
  split.
  - apply (proj1 (proj2 (proj2 parse_text_proof_field))).
    + vm_compute. discriminate.
    + vm_compute. lia.
  - apply (proj1 (proj2 (proj2 (proj2 parse_text_proof_field)))
             (py " x y ") 40 20).
    vm_compute. lia.
Defined.

(** C3 as stated fails: the proof body [a b] has two non-whitespace
    characters and is attached all the same. *)
Lemma parse_text_attaches_two_nonspace :
  option_map
    (map (fun b => option_map (fun p => (p, nonspace_count p)) (proof_latex b)))
    (fst (parse_text (init [])
            (py "\begin{theorem}abc\end{theorem}\begin{proof}a b\end{proof}")
            true))
  = Some [Some (py "a b", 2)].
Proof. vm_compute. reflexivity. Qed.

(** The test on the proof reads [proof_clean and len(...) < 3], where the
    one on the statement reads [not content_clean or len(...) < 3]: an
    empty proof body is attached as the empty string. *)
Example empty_proof_attached :
  option_map (map proof_latex)
    (fst (parse_text (init [])
            (py "\begin{theorem}abc\end{theorem}\begin{proof}\end{proof}")
            true))
  = Some [Some []].
Proof. vm_compute. reflexivity. Qed.

(** ** The custom environment detector *)

(** C7, against the code.  The loop over the direct declarations appends
    a captured name without looking it up in the list collected so far
    (the loop over the style-then-declaration pairs does look it up): a
    name declared twice is returned twice. *)
Theorem detect_custom_environments_duplicate :
  detect_custom_environments
    (py "\newtheorem{thm}{Theorem}\newtheorem{thm}{Teorema}")
  = [py "thm"; py "thm"]
  /\ ~ NoDup (detect_custom_environments
                (py "\newtheorem{thm}{Theorem}\newtheorem{thm}{Teorema}")).
Proof.
  split; [vm_compute; reflexivity|].
  intros H. vm_compute in H. inversion H as [|x l Hin _]; subst.
  apply Hin. now left.
Qed.

(** The second loop never adds a name that is already there. *)
Lemma collect_theoremstyle_NoDup (ms : list captures) :
  forall custom_envs,
    NoDup custom_envs -> NoDup (collect_theoremstyle ms custom_envs).
Proof.
  induction ms as [|caps ms IH]; intros custom_envs H;
    cbn [collect_theoremstyle]; [assumption|].
  destruct (negb (is_empty (strip (group_str 1 caps)))
            && negb (mem (strip (group_str 1 caps)) MATH_ENVIRONMENTS)
            && negb (mem (strip (group_str 1 caps)) custom_envs)) eqn:E;
    [|now apply IH].
  apply IH. apply andb_true_iff in E. destruct E as [_ E].
  apply negb_true_iff in E.
  assert (Hn : ~ In (strip (group_str 1 caps)) custom_envs).
  { intros Hin. apply mem_In in Hin. congruence. }
  clear E. induction custom_envs as [|x l IHl]; simpl.
  - constructor; [tauto | constructor].
  - inversion H; subst. constructor.
    + rewrite in_app_iff. simpl. intros [Hx|[Hx|[]]]; [contradiction|].
      subst. apply Hn. now left.
    + apply IHl; [assumption|]. intros Hin. apply Hn. now right.
Qed.

(** ** The registry across calls *)

(** C8 as stated fails: [doc_B] declares no name, so the second call
    keeps the registry the first call built from [doc_A], and finds the
    block a fresh parser does not. *)
Lemma parse_text_registry_persists :
  fst (parse_text (snd (parse_text (init []) doc_A true)) doc_B true)
  = Some [mkBlock (py "remark") None None (py "abc") None None]
  /\ fst (parse_text (init []) doc_B true) = Some [].
Proof. split; vm_compute; reflexivity. Qed.

(** C8 (as amended).  When document B declares at least one custom name,
    parsing it with auto-detection gives the same blocks and leaves the
    same registry whatever the instance was before: the registry is
    rebuilt, before the walk, from the base table, the variant table and
    B's names only, so parsing B after any A is parsing B on a fresh
    parser.  When B declares none, the call leaves the instance as it
    found it and walks with that registry; in particular a call on a
    document A without declarations changes nothing for the next
    call. *)
Theorem parse_text_registry (custom : list str) (A B : str) :
  (detect_custom_environments (remove_comments B) <> [] ->
   (forall self self', parse_text self B true = parse_text self' B true)
   /\ (forall self,
          snd (parse_text self B true)
          = init (detect_custom_environments (remove_comments B)))
   /\ parse_text (snd (parse_text (init custom) A true)) B true
      = parse_text (init custom) B true)
  /\ (detect_custom_environments (remove_comments B) = [] ->
      forall self,
        parse_text self B true
        = (parse_loop (S (length (remove_comments B))) self
             (remove_comments B) 0 [], self))
  /\ (detect_custom_environments (remove_comments A) = [] ->
      parse_text (snd (parse_text (init custom) A true)) B true
      = parse_text (init custom) B true).
Proof.
  assert (Hre : detect_custom_environments (remove_comments B) <> [] ->
                forall self,
                  registry_for self (remove_comments B) true
                  = init (detect_custom_environments (remove_comments B))).
  { intros H self. unfold registry_for. apply is_empty_false in H.
    now rewrite H. }
  split; [|split].
  - intros H. split; [|split].
    + intros self self'. unfold parse_text. now rewrite !(Hre H).
    + intros self. unfold parse_text. cbn [snd]. now apply Hre.
    + unfold parse_text at 1 3. now rewrite !(Hre H).
  - intros H self. unfold parse_text, registry_for. now rewrite H.
  - intros H. unfold parse_text at 2. cbn [snd]. unfold registry_for.
    now rewrite H.
Qed.

Lemma parse_text_registry_witness :
  parse_text (snd (parse_text (init []) doc_A true))
    (py "\newtheorem{note}{Note}\begin{note}abc\end{note}") true
  = parse_text (init [])
      (py "\newtheorem{note}{Note}\begin{note}abc\end{note}") true.
Proof.
  apply (proj1 (parse_text_registry [] doc_A
                  (py "\newtheorem{note}{Note}\begin{note}abc\end{note}"))).
  vm_compute. discriminate.
Defined.

(** ** The matcher against the patterns' languages *)

Lemma firstn_app_exact (w s' : str) :
  firstn (length (w ++ s') - length s') (w ++ s') = w.
Proof.
  rewrite length_app. replace (length w + length s' - length s') with (length w) by lia.
  rewrite firstn_app, Nat.sub_diag, firstn_all. simpl. apply app_nil_r.
Qed.

Lemma star_loop_sound (A : Type) (p : ascii -> bool) (s : str)
      (k : str -> option A) (a : A) :
  star_loop p s k = Some a ->
  exists w s', s = w ++ s' /\ forallb p w = true /\ k s' = Some a.
Proof.
  induction s as [|x s IH]; simpl; intros H.
  - now exists [], [].
  - destruct (p x) eqn:Ep.
    + destruct (star_loop p s k) eqn:E.
      * inversion H; subst. destruct (IH eq_refl) as (w & s' & -> & Hw & Hk).
        exists (x :: w), s'. simpl. now rewrite Ep, Hw.
      * now exists [], (x :: s).
    + now exists [], (x :: s).
Qed.

(** Whatever the matcher returns comes from the continuation, called on
    what is left after a word of the pattern. *)
Lemma rmatch_sound (A : Type) (ic : bool) (r : re) :
  forall (s : str) (caps : captures) (k : str -> captures -> option A) (a : A),
    rmatch ic r s caps k = Some a ->
    exists w s' caps',
      s = w ++ s' /\ matches ic r w caps caps' /\ k s' caps' = Some a.
Proof.
  induction r as [ |c|p|r1 IH1 r2 IH2|r1 IH1 r2 IH2|r1 IH1|p|p|n r1 IH1];
    intros s caps k a H; simpl in *.
  - exists [], s, caps. repeat split; [constructor | assumption].
  - destruct s as [|x s]; [discriminate|].
    destruct (chr_match ic c x) eqn:E; [|discriminate].
    exists [x], s, caps. repeat split; [now constructor | assumption].
  - destruct s as [|x s]; [discriminate|].
    destruct (p x) eqn:E; [|discriminate].
    exists [x], s, caps. repeat split; [now constructor | assumption].
  - apply IH1 in H. destruct H as (w1 & s1 & c1 & -> & M1 & H).
    apply IH2 in H. destruct H as (w2 & s2 & c2 & -> & M2 & H).
    exists (w1 ++ w2), s2, c2. rewrite <- app_assoc.
    repeat split; [econstructor; eassumption | assumption].
  - destruct (rmatch ic r1 s caps k) eqn:E.
    + inversion H; subst. apply IH1 in E.
      destruct E as (w & s' & c' & -> & M & Hk). exists w, s', c'.
      repeat split; [now apply M_AltL | assumption].
    + apply IH2 in H. destruct H as (w & s' & c' & -> & M & Hk).
      exists w, s', c'. repeat split; [now apply M_AltR | assumption].
  - destruct (rmatch ic r1 s caps k) eqn:E.
    + inversion H; subst. apply IH1 in E.
      destruct E as (w & s' & c' & -> & M & Hk). exists w, s', c'.
      repeat split; [now apply M_OptSome | assumption].
    + exists [], s, caps. repeat split; [apply M_OptNone | assumption].
  - apply star_loop_sound in H. destruct H as (w & s' & -> & Hw & Hk).
    exists w, s', caps. repeat split; [now constructor | assumption].
  - destruct s as [|x s]; [discriminate|].
    destruct (p x) eqn:E; [|discriminate].
    apply star_loop_sound in H. destruct H as (w & s' & -> & Hw & Hk).
    exists (x :: w), s', caps. repeat split; [now constructor | assumption].
  - apply IH1 in H. destruct H as (w & s' & c' & -> & M & Hk).
    rewrite firstn_app_exact in Hk.
    exists w, s', ((n, w) :: c'). repeat split; [now constructor | assumption].
Qed.

Lemma star_loop_complete (A : Type) (p : ascii -> bool) (w s' : str)
      (k : str -> option A) :
  forallb p w = true -> k s' <> None -> star_loop p (w ++ s') k <> None.
Proof.
  induction w as [|x w IH]; simpl; intros Hw Hk.
  - destruct s' as [|y s']; simpl; [assumption|].
    destruct (p y); [|assumption].
    destruct (star_loop p s' k); [discriminate | assumption].
  - apply andb_true_iff in Hw. destruct Hw as [Hx Hw]. rewrite Hx.
    specialize (IH Hw Hk).
    destruct (star_loop p (w ++ s') k); [discriminate | contradiction].
Qed.

(** Where a word of the pattern is followed by a text on which the
    continuation succeeds, the matcher succeeds. *)
Lemma rmatch_complete (A : Type) (ic : bool) (r : re) (w : str)
      (c0 c1 : captures) :
  matches ic r w c0 c1 ->
  forall (s' : str) (k : str -> captures -> option A),
    (forall c, k s' c <> None) ->
    forall caps, rmatch ic r (w ++ s') caps k <> None.
Proof.
  induction 1 as [c|a x c Ha|p x c Hp|r1 r2 w1 w2 c0 c1 c2 M1 IH1 M2 IH2
                  |r1 r2 w c c' M IH|r1 r2 w c c' M IH|r w c c' M IH|r c
                  |p w c Hw|p x w c Hx Hw|n r w c c' M IH];
    intros s' k Hk caps; simpl.
  - apply Hk.
  - rewrite Ha. apply Hk.
  - rewrite Hp. apply Hk.
  - rewrite <- app_assoc. apply IH1. intros c. now apply IH2.
  - specialize (IH s' k Hk caps).
    destruct (rmatch ic r1 (w ++ s') caps k); [discriminate | contradiction].
  - destruct (rmatch ic r1 (w ++ s') caps k); [discriminate | now apply IH].
  - specialize (IH s' k Hk caps).
    destruct (rmatch ic r (w ++ s') caps k); [discriminate | contradiction].
  - destruct (rmatch ic r s' caps k); [discriminate | apply Hk].
  - apply star_loop_complete; [assumption | apply Hk].
  - rewrite Hx. apply star_loop_complete; [assumption | apply Hk].
  - apply IH. intros c1. apply Hk.
Qed.

Lemma match_at_sound (ic : bool) (r : re) (s : str) (n : nat) (caps : captures) :
  match_at ic r s = Some (n, caps) ->
  exists w s', s = w ++ s' /\ n = length w /\ matches ic r w [] caps.
Proof.
  unfold match_at. intros H. apply rmatch_sound in H.
  destruct H as (w & s' & c' & -> & M & H). inversion H; subst.
  exists w, s'. repeat split; [|assumption].
  rewrite length_app. lia.
Qed.

Lemma match_at_complete (ic : bool) (r : re) (w s' : str) (c0 c1 : captures) :
  matches ic r w c0 c1 -> match_at ic r (w ++ s') <> None.
Proof.
  intros M. unfold match_at. eapply rmatch_complete; [eassumption|].
  intros c. discriminate.
Qed.

(** [search_from] returns the leftmost offset at which the pattern
    matches. *)
Lemma search_from_spec (ic : bool) (r : re) (s : str) :
  forall off,
    match search_from ic r s off with
    | Some m =>
        exists i n,
          m_start m = off + i /\ m_end m = off + i + n /\ i <= length s
          /\ match_at ic r (skipn i s) = Some (n, m_groups m)
          /\ forall i', i' < i -> match_at ic r (skipn i' s) = None
    | None => forall i, i <= length s -> match_at ic r (skipn i s) = None
    end.
Proof.
  induction s as [|x s IH]; intros off; simpl.
  - destruct (match_at ic r []) as [[n caps]|] eqn:E.
    + exists 0, n. simpl. repeat split; try lia; try assumption.
    + intros i Hi. now rewrite skipn_nil.
  - destruct (match_at ic r (x :: s)) as [[n caps]|] eqn:E.
    + exists 0, n. simpl. repeat split; try lia; try assumption.
    + specialize (IH (S off)). destruct (search_from ic r s (S off)) as [m|].
      * destruct IH as (i & n & H1 & H2 & H3 & H4 & H5).
        exists (S i), n. simpl. repeat split; try lia; try assumption.
        intros [|i'] Hi'; simpl; [assumption | apply H5; lia].
      * intros [|i] Hi; simpl; [assumption | apply IH; lia].
Qed.

(** ** Markers *)

Lemma chr_match_ci (a x : ascii) :
  chr_match true a x = true <-> lower_char x = lower_char a.
Proof. unfold chr_match. apply ascii_eqb_eq. Qed.

Lemma matches_Chr (a : ascii) (w : str) (c c' : captures) :
  matches true (Chr a) w c c' <-> c' = c /\ lower w = lower [a].
Proof.
  split.
  - intros H. inversion H; subst. split; [reflexivity|].
    simpl. f_equal. now apply chr_match_ci.
  - intros [-> H]. destruct w as [|x [|y w]]; simpl in H; try discriminate.
    inversion H. constructor. now apply chr_match_ci.
Qed.

Lemma matches_lit (u w : str) (c c' : captures) :
  matches true (lit u) w c c' <-> c' = c /\ lower w = lower u.
Proof.
  revert w c c'. induction u as [|a u IH]; intros w c c'; simpl.
  - split.
    + intros H. inversion H; subst. now split.
    + intros [-> H]. destruct w; [constructor | discriminate].
  - split.
    + intros H. inversion H as [| | |r1 r2 w1 w2 c0 c1 c2 M1 M2| | | | | | |]; subst.
      apply matches_Chr in M1. destruct M1 as [-> E1].
      apply IH in M2. destruct M2 as [-> E2].
      split; [reflexivity|]. rewrite lower_app, E1, E2. reflexivity.
    + intros [-> H]. destruct w as [|x w]; [discriminate|].
      simpl in H. inversion H as [[Hx Hw]].
      change (x :: w) with ([x] ++ w). econstructor.
      * apply matches_Chr. split; [reflexivity|]. simpl. now rewrite Hx.
      * apply IH. split; [reflexivity | assumption].
Qed.

Lemma matches_alts_lit (names : list str) (w : str) (c c' : captures) :
  names <> [] ->
  (matches true (alts (map lit names)) w c c'
   <-> c' = c /\ exists name, In name names /\ lower w = lower name).
Proof.
  induction names as [|n names IH]; intros Hne; [contradiction|].
  destruct names as [|n' names].
  - simpl. rewrite matches_lit. split.
    + intros [-> H]. split; [reflexivity|]. exists n. split; [now left | assumption].
    + intros [-> (name & [<-|[]] & H)]. now split.
  - change (alts (map lit (n :: n' :: names)))
      with (Alt (lit n) (alts (map lit (n' :: names)))).
    split.
    + intros H.
      inversion H as [| | | |? ? ? ? ? M|? ? ? ? ? M| | | | |]; subst; clear H.
      * apply matches_lit in M. destruct M as [-> E].
        split; [reflexivity|]. exists n. split; [now left | assumption].
      * apply (proj1 (IH ltac:(discriminate))) in M.
        destruct M as [-> (name & Hin & E)].
        split; [reflexivity|]. exists name. split; [now right | assumption].
    + intros [-> (name & [<-|Hin] & E)].
      * apply M_AltL. apply matches_lit. now split.
      * apply M_AltR. apply (proj2 (IH ltac:(discriminate))).
        split; [reflexivity|]. now exists name.
Qed.

Lemma matches_opt_star (w : str) (c c' : captures) :
  matches true (Opt (Chr "*")) w c c' <-> c' = c /\ star_suffix (lower w).
Proof.
  unfold star_suffix. split.
  - intros H. inversion H as [| | | | | |? ? ? ? M| | | |]; subst.
    + apply matches_Chr in M. destruct M as [-> E]. split; [reflexivity | now right].
    + split; [reflexivity | now left].
  - intros [-> [H|H]].
    + destruct w; [apply M_OptNone | discriminate].
    + apply M_OptSome. apply matches_Chr. now split.
Qed.

(** A word of a marker pattern: a backslash, a keyword word, [{], a name
    word, an optional star and [}], up to case. *)
Lemma matches_marker_re (K N : re) (w : str) (c0 c2 : captures) :
  matches true (marker_re K N) w c0 c2 <->
  exists wk wn ws c1,
    matches true K wk c0 c1 /\ matches true N wn c1 c2
    /\ star_suffix (lower ws)
    /\ exists x y z,
        w = [x] ++ wk ++ [y] ++ wn ++ ws ++ [z]
        /\ lower [x] = py "\" /\ lower [y] = py "{" /\ lower [z] = py "}".
Proof.
  unfold marker_re. split.
  - intros H.
    inversion H as [| | |? ? w1 u1 ? ? ? M1 H1| | | | | | |]; subst; clear H.
    inversion H1 as [| | |? ? wk u2 ? c1 ? MK H2| | | | | | |]; subst; clear H1.
    inversion H2 as [| | |? ? w3 u3 ? ? ? M3 H3| | | | | | |]; subst; clear H2.
    inversion H3 as [| | |? ? wn u4 ? ? ? MN H4| | | | | | |]; subst; clear H3.
    inversion H4 as [| | |? ? w5 w6 ? ? ? M5 M6| | | | | | |]; subst; clear H4.
    apply matches_Chr in M1. destruct M1 as [E1c E1].
    apply matches_Chr in M3. destruct M3 as [E3c E3].
    apply matches_Chr in M6. destruct M6 as [E6c E6].
    apply matches_opt_star in M5. destruct M5 as [E5c E5]. subst.
    destruct w1 as [|x [|? ?]]; try discriminate.
    destruct w3 as [|y [|? ?]]; try discriminate.
    destruct w6 as [|z [|? ?]]; try discriminate.
    exists wk, wn, w5, c1. repeat split; try assumption.
    exists x, y, z. repeat split; assumption.
  - intros (wk & wn & ws & c1 & MK & MN & Hs & x & y & z & -> & Ex & Ey & Ez).
    econstructor; [apply matches_Chr; split; [reflexivity | exact Ex]|].
    econstructor; [exact MK|].
    econstructor; [apply matches_Chr; split; [reflexivity | exact Ey]|].
    econstructor; [exact MN|].
    econstructor; [apply matches_opt_star; split; [reflexivity | exact Hs]|].
    apply matches_Chr. split; [reflexivity | exact Ez].
Qed.

Lemma lower_star_suffix (star : str) : star_suffix star -> lower star = star.
Proof. intros [-> | ->]; reflexivity. Qed.

Lemma lower_kw (b : bool) : lower (kw b) = kw b.
Proof. destruct b; reflexivity. Qed.

(** The pieces of a text that reads as a marker word. *)
Lemma lower_marker_word (b : bool) (name star w : str) :
  star_suffix star ->
  (lower w = lower (marker_word b name star) <->
   exists wk wn ws x y z,
     w = [x] ++ wk ++ [y] ++ wn ++ ws ++ [z]
     /\ lower [x] = py "\" /\ lower wk = kw b /\ lower [y] = py "{"
     /\ lower wn = lower name /\ lower ws = star /\ lower [z] = py "}").
Proof.
  intros Hs. unfold marker_word.
  rewrite !lower_app, lower_kw, (lower_star_suffix star Hs).
  change (lower (py "\")) with (py "\").
  change (lower (py "{")) with (py "{").
  change (lower (py "}")) with (py "}").
  split.
  - intros H. unfold lower in H.
    apply map_eq_app in H. destruct H as (w1 & r1 & -> & E1 & H).
    apply map_eq_app in H. destruct H as (wk & r2 & -> & Ek & H).
    apply map_eq_app in H. destruct H as (w3 & r3 & -> & E3 & H).
    apply map_eq_app in H. destruct H as (wn & r4 & -> & En & H).
    apply map_eq_app in H. destruct H as (ws & w6 & -> & Es & E6).
    destruct w1 as [|x [|? ?]]; try discriminate.
    destruct w3 as [|y [|? ?]]; try discriminate.
    destruct w6 as [|z [|? ?]]; try discriminate.
    exists wk, wn, ws, x, y, z. repeat split; assumption.
  - intros (wk & wn & ws & x & y & z & -> & Ex & Ek & Ey & En & Es & Ez).
    rewrite !lower_app. now rewrite Ex, Ek, Ey, En, Es, Ez.
Qed.


Lemma proof_pattern_marker_re (b : bool) :
  proof_pattern_of (kw b)
  = marker_re (lit (kw b)) (Grp 1 (alts (map lit proof_variants))).
Proof. reflexivity. Qed.



(** The words of a proof pattern: the markers of the five proof names. *)
Lemma proof_pattern_sound (b : bool) (w : str) (c0 c : captures) :
  matches true (proof_pattern_of (kw b)) w c0 c ->
  exists name star,
    In name proof_variants /\ star_suffix star
    /\ lower w = lower (marker_word b name star).
Proof.
  rewrite proof_pattern_marker_re. intros H. apply matches_marker_re in H.
  destruct H as (wk & wn & ws & c1 & MK & MN & Hs & x & y & z & -> & Ex & Ey & Ez).
  apply matches_lit in MK. destruct MK as [-> Ek]. rewrite lower_kw in Ek.
  inversion MN as [| | | | | | | | | |? ? ? ? ? MA]; subst; clear MN.
  apply (proj1 (matches_alts_lit proof_variants _ _ _ ltac:(discriminate))) in MA.
  destruct MA as [-> (name & Hin & En)].
  exists name, (lower ws). repeat split; try assumption.
  apply (lower_marker_word b name (lower ws) _ Hs).
  exists wk, wn, ws, x, y, z. repeat split; assumption.
Qed.

Lemma proof_pattern_complete (b : bool) (name star w : str) (c0 : captures) :
  In name proof_variants ->
  star_suffix star ->
  lower w = lower (marker_word b name star) ->
  exists c, matches true (proof_pattern_of (kw b)) w c0 c.
Proof.
  intros Hin Hs H. apply (lower_marker_word b name star w Hs) in H.
  destruct H as (wk & wn & ws & x & y & z & -> & Ex & Ek & Ey & En & Es & Ez).
  exists ((1, wn) :: c0). rewrite proof_pattern_marker_re.
  apply matches_marker_re. exists wk, wn, ws, c0.
  split; [|split; [|split]].
  - apply matches_lit. split; [reflexivity | now rewrite lower_kw].
  - constructor. apply matches_alts_lit; [discriminate|].
    split; [reflexivity|]. now exists name.
  - now rewrite Es.
  - exists x, y, z. repeat split; assumption.
Qed.

Lemma marker_word_length (b : bool) (name star : str) :
  1 <= length (marker_word b name star).
Proof. unfold marker_word. simpl. lia. Qed.

Lemma slice_prefix (text : str) (i : nat) (w s' : str) :
  skipn i text = w ++ s' -> slice text i (i + length w) = w.
Proof.
  intros H. unfold slice. rewrite H.
  replace (i + length w - i) with (length w) by lia.
  rewrite firstn_app, Nat.sub_diag, firstn_all. simpl. apply app_nil_r.
Qed.

Lemma reads_of_prefix (text : str) (i : nat) (w s' w0 : str) :
  skipn i text = w ++ s' -> lower w = lower w0 -> 1 <= length w0 ->
  reads text i (i + length w) w0.
Proof.
  intros H E Hl. unfold reads. rewrite (slice_prefix _ _ _ _ H).
  split; [|assumption].
  assert (Hw : length w = length w0).
  { rewrite <- (lower_length w), E. apply lower_length. }
  apply (f_equal (@length ascii)) in H.
  rewrite length_skipn, length_app in H. lia.
Qed.

Lemma prefix_of_reads (text : str) (i j : nat) (w0 : str) :
  reads text i j w0 ->
  skipn i text = slice text i j ++ skipn j text /\ j = i + length w0.
Proof.
  unfold reads, slice. intros [Hij E]. split.
  - rewrite <- (firstn_skipn (j - i) (skipn i text)) at 1.
    rewrite skipn_skipn. now replace (j - i + i) with j by lia.
  - apply (f_equal (@length ascii)) in E. rewrite !lower_length in E.
    rewrite length_firstn, length_skipn in E. lia.
Qed.


Lemma proof_marker_in_text (text : str) (b : bool) (i j : nat) :
  proof_marker text b i j -> i < j <= length text.
Proof.
  intros (name & star & _ & _ & H). destruct (prefix_of_reads _ _ _ _ H) as [_ ->].
  destruct H as [H _]. pose proof (marker_word_length b name star). lia.
Qed.

(** Two words read at the same offset are prefixes of the same text. *)
Lemma reads_same_offset (text : str) (i j j' : nat) (w w' : str) :
  reads text i j w -> reads text i j' w' ->
  exists r r', lower w ++ r = lower w' ++ r'.
Proof.
  intros H H'.
  destruct (prefix_of_reads _ _ _ _ H) as [E _].
  destruct (prefix_of_reads _ _ _ _ H') as [E' _].
  destruct H as [_ L]. destruct H' as [_ L'].
  exists (lower (skipn j text)), (lower (skipn j' text)).
  rewrite <- L, <- L', <- !lower_app, <- E, <- E'. reflexivity.
Qed.


Lemma proof_marker_unique (text : str) (b b' : bool) (i j j' : nat) :
  proof_marker text b i j -> proof_marker text b' i j' -> b = b' /\ j = j'.
Proof.
  intros (name & star & Hin & Hs & H) (name' & star' & Hin' & Hs' & H').
  destruct (reads_same_offset _ _ _ _ _ _ H H') as (r & r' & E).
  destruct (prefix_of_reads _ _ _ _ H) as [_ ->].
  destruct (prefix_of_reads _ _ _ _ H') as [_ ->].
  clear H H'.
  unfold proof_variants in Hin, Hin'. simpl in Hin, Hin'.
  destruct Hin as [<-|[<-|[<-|[<-|[<-|[]]]]]];
    destruct Hin' as [<-|[<-|[<-|[<-|[<-|[]]]]]];
    destruct Hs as [-> | ->]; destruct Hs' as [-> | ->];
    destruct b, b';
    first [ split; reflexivity
          | exfalso; vm_compute in E; discriminate E ].
Qed.

(** ** Balanced scanning, stated on the markers *)

Section Scan.
Variable text : str.
Variable marker : bool -> nat -> nat -> Prop.
Hypothesis marker_in_text : forall b i j, marker b i j -> i < j <= length text.
Hypothesis marker_unique :
  forall b b' i j j', marker b i j -> marker b' i j' -> b = b' /\ j = j'.

Lemma first_marker_unique (pos : nat) (b b' : bool) (i j i' j' : nat) :
  first_marker marker pos b i j -> first_marker marker pos b' i' j' ->
  b = b' /\ i = i' /\ j = j'.
Proof.
  intros (Hp & Hm & Hl) (Hp' & Hm' & Hl').
  assert (i = i').
  { destruct (Nat.lt_trichotomy i i') as [Hlt|[He|Hgt]]; [|assumption|].
    - exfalso. apply (Hl' b i j); [lia | assumption].
    - exfalso. apply (Hl b' i' j'); [lia | assumption]. }
  subst i'. destruct (marker_unique _ _ _ _ _ Hm Hm') as [-> ->]. auto.
Qed.

Lemma scan_deterministic (depth : Z) (pos : nat) (r r' : option (nat * nat)) :
  scan marker depth pos r -> scan marker depth pos r' -> r = r'.
Proof.
  intros H. revert r'.
  induction H as [depth pos Hn|depth pos i j r Hf Hs IH|depth pos i j Hf Hd
                  |depth pos i j r Hf Hd Hs IH];
    intros r' H';
    inversion H' as [? ? Hn'|? ? i' j' ? Hf' Hs'|? ? i' j' Hf' Hd'
                     |? ? i' j' ? Hf' Hd' Hs']; subst;
    try reflexivity;
    try (exfalso; destruct Hf' as (Hp' & Hm' & _); now apply (Hn _ _ _ Hp' Hm'));
    try (exfalso; destruct Hf as (Hp & Hm & _); now apply (Hn' _ _ _ Hp Hm));
    destruct (first_marker_unique _ _ _ _ _ _ _ Hf Hf') as (Hb & Hi & Hj);
    try discriminate; subst; try contradiction; try reflexivity.
  - now apply IH.
  - now apply IH.
Qed.

Variable next : nat -> option (bool * nat * nat).
Hypothesis next_some :
  forall pos b i j, next pos = Some (b, i, j) -> first_marker marker pos b i j.
Hypothesis next_none : forall pos, next pos = None -> no_marker marker pos.

(** With fuel for every character left, the loop returns what the scan
    over the markers prescribes. *)
Lemma scan_loop_spec (start : nat) :
  forall (fuel : nat) (depth : Z) (current_pos : nat),
    (0 < depth)%Z ->
    length text - current_pos < fuel ->
    exists r, scan marker depth current_pos r
              /\ scan_loop text next fuel start depth current_pos
                 = Some (scan_result text start r).
Proof.
  induction fuel as [|fuel IH]; intros depth cur Hd Hf; [lia|].
  simpl. replace (0 <? depth)%Z with true by (symmetry; now apply Z.ltb_lt).
  simpl. destruct (cur <? length text) eqn:G.
  - apply Nat.ltb_lt in G.
    destruct (next cur) as [[[b i] j]|] eqn:En.
    + pose proof (next_some _ _ _ _ En) as Hfm.
      pose proof (marker_in_text _ _ _ (proj1 (proj2 Hfm))) as Hin.
      destruct Hfm as (Hp & Hfm'). destruct b.
      * replace (depth + 1 =? 0)%Z with false by (symmetry; apply Z.eqb_neq; lia).
        destruct (IH (depth + 1)%Z j) as (r & Hs & Hr); [lia | lia |].
        exists r. split; [|assumption].
        apply scan_open with i j; [now split | assumption].
      * destruct (depth - 1 =? 0)%Z eqn:E0.
        -- apply Z.eqb_eq in E0. exists (Some (i, j)). split; [|reflexivity].
           apply scan_close; [now split | assumption].
        -- apply Z.eqb_neq in E0.
           destruct (IH (depth - 1)%Z j) as (r & Hs & Hr); [lia | lia |].
           exists r. split; [|assumption].
           apply scan_pop with i j; [now split | assumption | assumption].
    + exists None. split; [|reflexivity].
      apply scan_exhausted. now apply next_none.
  - apply Nat.ltb_ge in G. exists None. split; [|reflexivity].
    apply scan_exhausted. intros b i j Hp Hm. apply marker_in_text in Hm. lia.
Qed.

End Scan.

(** [re_search] returns the leftmost offset, at or after [pos], at which
    the pattern matches. *)
Lemma re_search_first (r : re) (text : str) (pos : nat) :
  match re_search true r text pos with
  | Some m =>
      pos <= m_start m <= m_end m
      /\ match_at true r (skipn (m_start m) text)
         = Some (m_end m - m_start m, m_groups m)
      /\ forall i, pos <= i < m_start m -> match_at true r (skipn i text) = None
  | None => forall i, pos <= i -> match_at true r (skipn i text) = None
  end.
Proof.
  unfold re_search. pose proof (search_from_spec true r (skipn pos text) pos) as H.
  destruct (search_from true r (skipn pos text) pos) as [m|].
  - destruct H as (i & n & Hs & He & Hi & Hm & Hl).
    rewrite skipn_skipn in Hm. split; [lia|]. split.
    + rewrite Hs, He. replace (pos + i + n - (pos + i)) with n by lia.
      now replace (pos + i) with (i + pos) by lia.
    + intros i' Hi'. specialize (Hl (i' - pos)). rewrite skipn_skipn in Hl.
      replace (i' - pos + pos) with i' in Hl by lia. apply Hl. lia.
  - intros i Hi. rewrite length_skipn in H.
    destruct (Nat.le_gt_cases i (length text)) as [Hle|Hgt].
    + specialize (H (i - pos)). rewrite skipn_skipn in H.
      replace (i - pos + pos) with i in H by lia. apply H. lia.
    + rewrite skipn_all2 by lia.
      specialize (H (length text - pos)). rewrite skipn_skipn in H.
      rewrite skipn_all2 in H by lia. apply H. lia.
Qed.



Lemma match_at_proof_marker (b : bool) (text : str) (i n : nat) (caps : captures) :
  match_at true (proof_pattern_of (kw b)) (skipn i text) = Some (n, caps) ->
  proof_marker text b i (i + n).
Proof.
  intros H. apply match_at_sound in H. destruct H as (w & s' & Hw & -> & M).
  apply proof_pattern_sound in M. destruct M as (name & star & Hin & Hs & E).
  exists name, star. split; [assumption|]. split; [assumption|].
  apply (reads_of_prefix text i w s'); [assumption | assumption |].
  apply marker_word_length.
Qed.

Lemma proof_marker_match_at (b : bool) (text : str) (i j : nat) :
  proof_marker text b i j ->
  match_at true (proof_pattern_of (kw b)) (skipn i text) <> None.
Proof.
  intros (name & star & Hin & Hs & H). destruct (prefix_of_reads _ _ _ _ H) as [E _].
  destruct H as [_ L]. rewrite E.
  destruct (proof_pattern_complete b name star _ [] Hin Hs L) as (c & M).
  now apply match_at_complete with [] c.
Qed.

(** ** The balanced block scanner *)






(** ** The proof associator *)

(** A search for one kind of proof marker finds the first marker of
    that kind. *)
Lemma proof_search_spec (b : bool) (text : str) (pos : nat) :
  match re_search true (proof_pattern_of (kw b)) text pos with
  | Some m =>
      pos <= m_start m /\ proof_marker text b (m_start m) (m_end m)
      /\ forall i j, pos <= i < m_start m -> ~ proof_marker text b i j
  | None => forall i j, pos <= i -> ~ proof_marker text b i j
  end.
Proof.
  pose proof (re_search_first (proof_pattern_of (kw b)) text pos) as H.
  destruct (re_search true (proof_pattern_of (kw b)) text pos) as [m|].
  - destruct H as (Hp & Hm & Hl). apply match_at_proof_marker in Hm.
    replace (m_start m + (m_end m - m_start m)) with (m_end m) in Hm by lia.
    split; [lia|]. split; [assumption|].
    intros i j Hi Hm'. apply proof_marker_match_at in Hm'. apply Hm'. now apply Hl.
  - intros i j Hi Hm. apply proof_marker_match_at in Hm. apply Hm. now apply H.
Qed.

Lemma extract_proof_loop_scan (self : LaTeXParser) (text : str) (pcs : nat) :
  forall fuel depth current_pos,
    extract_proof_loop fuel self text pcs depth current_pos
    = scan_loop text (next_proof self text) fuel pcs depth current_pos.
Proof.
  induction fuel as [|fuel IH]; intros depth cur; [reflexivity|].
  cbn [extract_proof_loop scan_loop]. unfold next_proof at 1.
  destruct (0 <? depth)%Z eqn:Hd; [|reflexivity].
  destruct (cur <? length text); [|reflexivity]. cbn [andb].
  destruct (next_proof_marker self text cur) as [[m [|]]|];
    cbn [option_map]; [| |reflexivity].
  - apply Z.ltb_lt in Hd.
    replace (depth + 1 =? 0)%Z with false by (symmetry; apply Z.eqb_neq; lia).
    apply IH.
  - now rewrite IH.
Qed.

Lemma next_proof_some (c : list str) (text : str) (pos : nat)
      (b : bool) (i j : nat) :
  next_proof (init c) text pos = Some (b, i, j) ->
  first_marker (proof_marker text) pos b i j.
Proof.
  unfold next_proof, next_proof_marker, init.
  cbn [proof_start_pattern proof_end_pattern].
  pose proof (proof_search_spec true text pos) as Hb.
  pose proof (proof_search_spec false text pos) as He.
  cbn [kw] in Hb, He.
  destruct (re_search true (proof_pattern_of (py "begin")) text pos) as [mb|];
    destruct (re_search true (proof_pattern_of (py "end")) text pos) as [me|].
  - destruct Hb as (Hb1 & Hb2 & Hb3). destruct He as (He1 & He2 & He3).
    destruct (m_start mb <? m_start me) eqn:Hlt; cbn [option_map];
      intros E; inversion E; subst; clear E.
    + apply Nat.ltb_lt in Hlt. split; [assumption|]. split; [assumption|].
      intros [|] i' j' Hi'; [apply Hb3 | apply He3]; lia.
    + apply Nat.ltb_ge in Hlt. split; [assumption|]. split; [assumption|].
      intros [|] i' j' Hi'; [apply Hb3 | apply He3]; lia.
  - destruct Hb as (Hb1 & Hb2 & Hb3). cbn [option_map].
    intros E; inversion E; subst; clear E.
    split; [assumption|]. split; [assumption|].
    intros [|] i' j' Hi'; [apply Hb3 | apply He]; lia.
  - destruct He as (He1 & He2 & He3). cbn [option_map].
    intros E; inversion E; subst; clear E.
    split; [assumption|]. split; [assumption|].
    intros [|] i' j' Hi'; [apply Hb | apply He3]; lia.
  - discriminate.
Qed.

Lemma next_proof_none (c : list str) (text : str) (pos : nat) :
  next_proof (init c) text pos = None -> no_marker (proof_marker text) pos.
Proof.
  unfold next_proof, next_proof_marker, init.
  cbn [proof_start_pattern proof_end_pattern].
  pose proof (proof_search_spec true text pos) as Hb.
  pose proof (proof_search_spec false text pos) as He.
  cbn [kw] in Hb, He.
  destruct (re_search true (proof_pattern_of (py "begin")) text pos) as [mb|];
    destruct (re_search true (proof_pattern_of (py "end")) text pos) as [me|];
    try (destruct (m_start mb <? m_start me)); cbn [option_map];
    try discriminate.
  intros _ [|] i j Hi; [now apply Hb | now apply He].
Qed.


(** [extract_proof], case by case on the first opening proof marker of
    the text that remains after [start_pos]. *)
Lemma extract_proof_cases (c : list str) (text : str) (start_pos : nat) :
  let remaining := slice_from text start_pos in
  ((forall i j, ~ proof_marker remaining true i j)
   /\ extract_proof (init c) text start_pos = Some None)
  \/ (exists i j,
         first_opening remaining 0 i j
         /\ ((forallb is_space (firstn i remaining) = false
              /\ extract_proof (init c) text start_pos = Some None)
             \/ (forallb is_space (firstn i remaining) = true
                 /\ extract_proof (init c) text start_pos
                    = option_map Some
                        (extract_proof_loop (S (length text)) (init c) text
                           (start_pos + j) 1 (start_pos + j))))).
Proof.
  intros remaining. unfold extract_proof. fold remaining.
  pose proof (proof_search_spec true remaining 0) as H. cbn [kw] in H.
  change (proof_start_pattern (init c)) with (proof_pattern_of (py "begin")).
  destruct (re_search true (proof_pattern_of (py "begin")) remaining 0) as [m|].
  - right. destruct H as (H1 & H2 & H3). exists (m_start m), (m_end m).
    split; [repeat split; assumption|].
    unfold slice. rewrite Nat.sub_0_r. cbn [skipn].
    destruct (forallb is_space (firstn (m_start m) remaining)) eqn:E.
    + right. split; [reflexivity|].
      apply strip_empty in E. rewrite E. cbn [is_empty negb].
      now destruct (extract_proof_loop _ _ _ _ _ _) as [[? ?]|].
    + left. split; [reflexivity|].
      destruct (strip (firstn (m_start m) remaining)) eqn:Es; [|reflexivity].
      apply strip_empty in Es. congruence.
  - left. split; [|reflexivity]. intros i j. apply H. lia.
Qed.




(** C5.  From the offset just past a proof's opening marker,
    [extract_proof] follows the successive proof markers of any of the
    five names (whatever name opened the proof), the depth starting at
    1, an opening marker adding 1 and a closing one taking 1 off: the
    proof's content runs to the start of the closing marker at which the
    depth reaches 0, the offset returned being just past that marker,
    and to the end of the document when the markers run out first.  In
    particular the first closing marker, of whichever name, closes a
    proof that holds no nested opening. *)
Theorem extract_proof_balanced (custom : list str) (text : str) :
  let marker := proof_marker text in
  (forall pcs,
      exists r, scan marker 1 pcs r
                /\ extract_proof_loop (S (length text)) (init custom) text pcs 1 pcs
                   = Some (scan_result text pcs r))
  /\ (forall pcs r,
         scan marker 1 pcs r ->
         extract_proof_loop (S (length text)) (init custom) text pcs 1 pcs
         = Some (scan_result text pcs r))
  /\ (forall start_pos res,
         extract_proof (init custom) text start_pos = Some (Some res) ->
         exists i j r,
           first_opening (slice_from text start_pos) 0 i j
           /\ scan marker 1 (start_pos + j) r
           /\ res = scan_result text (start_pos + j) r)
  /\ (forall pcs i j,
         first_marker marker pcs false i j ->
         extract_proof_loop (S (length text)) (init custom) text pcs 1 pcs
         = Some (slice text pcs i, j))
  /\ (forall pcs,
         no_marker marker pcs ->
         extract_proof_loop (S (length text)) (init custom) text pcs 1 pcs
         = Some (slice_from text pcs, length text)).
Proof.
  intros marker.
  assert (Hex : forall pcs,
             exists r, scan marker 1 pcs r
                       /\ extract_proof_loop (S (length text)) (init custom)
                            text pcs 1 pcs
                          = Some (scan_result text pcs r)).
  { intros pcs. rewrite extract_proof_loop_scan. apply scan_loop_spec.
    - apply proof_marker_in_text.
    - apply next_proof_some.
    - apply next_proof_none.
    - lia.
    - lia. }
  assert (Hall : forall pcs r,
             scan marker 1 pcs r ->
             extract_proof_loop (S (length text)) (init custom) text pcs 1 pcs
             = Some (scan_result text pcs r)).
  { intros pcs r Hr. destruct (Hex pcs) as (r' & Hr' & E). rewrite E.
    f_equal. f_equal.
    apply (scan_deterministic marker (proof_marker_unique text) _ _ _ _ Hr' Hr). }
  split; [exact Hex|]. split; [exact Hall|]. split; [|split].
  - intros start_pos res E.
    destruct (extract_proof_cases custom text start_pos)
      as [[_ E']|(i & j & Hf & [[_ E']|[_ E']])]; try congruence.
    destruct (Hex (start_pos + j)) as (r & Hr & El).
    rewrite El in E'. cbn [option_map] in E'. rewrite E' in E.
    inversion E; subst res. now exists i, j, r.
  - intros pcs i j Hf. apply (Hall pcs (Some (i, j))). now apply scan_close.
  - intros pcs Hn. apply (Hall pcs None). now apply scan_exhausted.
Qed.

Lemma extract_proof_balanced_witness :
  extract_proof_loop (S (length synonym_text)) (init []) synonym_text 13 1 13
  = Some (py "abc", 26).
Proof.
  apply (proj1 (proj2 (proj2 (proj2
           (extract_proof_balanced [] synonym_text)))) 13 16 26
           (next_proof_some [] synonym_text 13 false 16 26 eq_refl)).
Defined.

(** ** The bracketed title *)






(** [s.strip()] is [s] without its leading and trailing whitespace. *)
Lemma strip_spec (s : str) :
  exists pre suf,
    s = pre ++ strip s ++ suf
    /\ forallb is_space pre = true /\ forallb is_space suf = true
    /\ (forall c r, strip s = c :: r -> is_space c = false)
    /\ (forall r c, strip s = r ++ [c] -> is_space c = false).
Proof.
  unfold strip.
  destruct (lstrip_by_spec is_space s) as (pre & E1 & Hpre & Hfirst).
  destruct (rstrip_by_spec is_space (lstrip_by is_space s))
    as (suf & E2 & Hsuf & Hlast).
  exists pre, suf. split; [|split; [|split; [|split]]]; try assumption.
  - rewrite <- E2. exact E1.
  - intros c r H. rewrite H in E2. simpl in E2. now apply (Hfirst c (r ++ suf)).
Qed.



(** The three cases of a bracketed title, end to end. *)
Example titles_end_to_end :
  option_map (map title)
    (fst (parse_text (init [])
            (py "\begin{lemma}[]abc\end{lemma}\begin{lemma}[  ]abc\end{lemma}\begin{lemma}[ A b ]abc\end{lemma}\begin{lemma}abc\end{lemma}")
            true))
  = Some [None; Some []; Some (py "A b"); None].
Proof. vm_compute. reflexivity. Qed.

(** ** The repository's own scenario *)

(** What [test_parser] asserts: four blocks, a definition, a theorem, a
    lemma and a proposition, titled but for the lemma, the theorem and
    the proposition with their proofs. *)
Example test_parser_assertions :
  option_map
    (map (fun b => (type b, title b,
                    match proof_latex b with Some _ => true | None => false end)))
    (fst (parse_text (init []) test_latex true))
  = Some [ (py "definition", Some (py "Grupo"), false);
           (py "theorem", Some (py "Teorema de Lagrange"), true);
           (py "lemma", None, false);
           (py "proposition", Some (py "Unicidad del Neutro"), true) ].
Proof. vm_compute. reflexivity. Qed.

(** * Further properties of the parser *)

(** ** Lines and comments *)

Lemma split_on_not_nil (sep : ascii) (s : str) : split_on sep s <> [].
Proof.
  induction s as [|c s IH]; simpl; [discriminate|].
  destruct (ascii_eqb c sep); [discriminate|].
  destruct (split_on sep s); [contradiction | discriminate].
Qed.

Lemma join_cons (sep l : str) (ls : list str) :
  ls <> [] -> join sep (l :: ls) = l ++ sep ++ join sep ls.
Proof. destruct ls; [contradiction | reflexivity]. Qed.

(** [sep.join(s.split(sep))] gives [s] back. *)
Lemma join_split_on (sep : ascii) (s : str) : join [sep] (split_on sep s) = s.
Proof.
  induction s as [|c s IH]; simpl; [reflexivity|].
  pose proof (split_on_not_nil sep s) as Hn.
  destruct (ascii_eqb c sep) eqn:E.
  - apply ascii_eqb_eq in E. subst c.
    rewrite join_cons by assumption. simpl. now rewrite IH.
  - destruct (split_on sep s) as [|l ls]; [contradiction|].
    destruct ls as [|l' ls].
    + simpl in *. now rewrite IH.
    + rewrite join_cons by discriminate. rewrite join_cons in IH by discriminate.
      rewrite <- IH. reflexivity.
Qed.

(** Splitting a joined list of lines that hold no separator gives the
    lines back. *)
Lemma split_on_join (sep : ascii) (ls : list str) :
  ls <> [] -> Forall (fun l => ~ In sep l) ls ->
  split_on sep (join [sep] ls) = ls.
Proof.
  induction ls as [|l ls IH]; intros Hne Hall; [contradiction|].
  inversion Hall as [|? ? Hl Hls]; subst.
  destruct ls as [|l' ls].
  - simpl. clear IH Hall Hls Hne. induction l as [|c l IHl]; [reflexivity|].
    simpl. destruct (ascii_eqb c sep) eqn:E.
    + apply ascii_eqb_eq in E. subst. exfalso. apply Hl. now left.
    + rewrite IHl; [reflexivity|]. intros H. apply Hl. now right.
  - specialize (IH ltac:(discriminate) Hls).
    change (join [sep] (l :: l' :: ls)) with (l ++ [sep] ++ join [sep] (l' :: ls)).
    clear Hall Hls Hne. induction l as [|c l IHl].
    + simpl. replace (ascii_eqb sep sep) with true
        by (symmetry; now apply ascii_eqb_eq).
      simpl in IH. now rewrite IH.
    + simpl. destruct (ascii_eqb c sep) eqn:E.
      * apply ascii_eqb_eq in E. subst. exfalso. apply Hl. now left.
      * simpl in IHl. rewrite IHl; [reflexivity|]. intros H. apply Hl. now right.
Qed.

Lemma split_on_lines (sep : ascii) (s : str) :
  Forall (fun l => ~ In sep l) (split_on sep s).
Proof.
  induction s as [|c s IH]; simpl.
  - constructor; [tauto | constructor].
  - destruct (ascii_eqb c sep) eqn:E.
    + constructor; [tauto | assumption].
    + destruct (split_on sep s) as [|l ls].
      * constructor; [|constructor]. intros [H|[]]. subst.
        assert (ascii_eqb sep sep = true) by now apply ascii_eqb_eq. congruence.
      * inversion IH; subst. constructor; [|assumption].
        intros [H|H]; [|contradiction]. subst.
        assert (ascii_eqb sep sep = true) by now apply ascii_eqb_eq. congruence.
Qed.

Lemma cut_comment_prefix (line : str) :
  forall esc, exists rest, line = cut_comment esc line ++ rest.
Proof.
  induction line as [|c l IH]; intros esc; simpl.
  - now exists [].
  - destruct (ascii_eqb c "%" && negb esc).
    + now exists (c :: l).
    + destruct (IH (ascii_eqb c "\")) as (rest & E). exists rest.
      simpl. now rewrite <- E.
Qed.

Lemma cut_comment_idem (line : str) :
  forall esc, cut_comment esc (cut_comment esc line) = cut_comment esc line.
Proof.
  induction line as [|c l IH]; intros esc; simpl; [reflexivity|].
  destruct (ascii_eqb c "%" && negb esc) eqn:E; [reflexivity|].
  simpl. rewrite E. now rewrite IH.
Qed.

Lemma cut_comment_no_percent (line : str) :
  ~ In "%"%char line -> forall esc, cut_comment esc line = line.
Proof.
  induction line as [|c l IH]; intros Hn esc; simpl; [reflexivity|].
  destruct (ascii_eqb c "%") eqn:E.
  - apply ascii_eqb_eq in E. subst. exfalso. apply Hn. now left.
  - simpl. rewrite IH; [reflexivity|]. intros H. apply Hn. now right.
Qed.

Lemma cut_comment_lines (lines : list str) :
  Forall (fun l => ~ In newline l) lines ->
  Forall (fun l => ~ In newline l) (map (cut_comment false) lines).
Proof.
  intros H. apply Forall_map. eapply Forall_impl; [|exact H].
  intros l Hl Hin. apply Hl.
  destruct (cut_comment_prefix l false) as (rest & E). rewrite E.
  apply in_or_app. now left.
Qed.

Lemma remove_comments_lines (text : str) :
  split_on newline (remove_comments text)
  = map (cut_comment false) (split_on newline text).
Proof.
  unfold remove_comments. apply split_on_join.
  - intros H. apply map_eq_nil in H. now apply split_on_not_nil in H.
  - apply cut_comment_lines, split_on_lines.
Qed.

(** [remove_comments] keeps every newline: the output has as many lines
    as the input, and each of its lines is the beginning of the input's
    line of the same rank. *)
Theorem remove_comments_keeps_lines (text : str) :
  length (split_on newline (remove_comments text))
  = length (split_on newline text)
  /\ Forall2 (fun out_line in_line => exists rest, in_line = out_line ++ rest)
       (split_on newline (remove_comments text)) (split_on newline text).
Proof.
  rewrite remove_comments_lines. split; [apply length_map|].
  induction (split_on newline text) as [|l ls IH]; simpl; constructor.
  - apply cut_comment_prefix.
  - exact IH.
Qed.

(** Stripping the comments twice is stripping them once, so a text
    already stripped parses as before. *)
Theorem remove_comments_idempotent (text : str) :
  remove_comments (remove_comments text) = remove_comments text
  /\ forall self auto,
      parse_text self (remove_comments text) auto = parse_text self text auto.
Proof.
  assert (H : remove_comments (remove_comments text) = remove_comments text).
  { unfold remove_comments at 1. rewrite remove_comments_lines.
    rewrite map_map. unfold remove_comments. f_equal.
    apply map_ext. intros l. apply cut_comment_idem. }
  split; [exact H|].
  intros self auto. unfold parse_text. now rewrite H.
Qed.

(** A text without a percent sign is left as it is. *)
Theorem remove_comments_without_percent (text : str) :
  ~ In "%"%char text -> remove_comments text = text.
Proof.
  intros Hn. unfold remove_comments.
  rewrite <- (join_split_on newline text) at 2. f_equal.
  rewrite <- (map_id (split_on newline text)) at 2.
  apply map_ext_in. intros l Hl. apply cut_comment_no_percent.
  intros Hin. apply Hn. rewrite <- (join_split_on newline text).
  clear Hn. induction (split_on newline text) as [|l0 ls IH]; [contradiction|].
  destruct ls as [|l1 ls].
  - destruct Hl as [->|[]]. exact Hin.
  - change (join [newline] (l0 :: l1 :: ls))
      with (l0 ++ [newline] ++ join [newline] (l1 :: ls)).
    destruct Hl as [->|Hl].
    + apply in_or_app. now left.
    + apply in_or_app. right. apply in_or_app. right. now apply IH.
Qed.

Lemma remove_comments_without_percent_witness :
  remove_comments (py "a \ b
c") = py "a \ b
c".
Proof.
  apply remove_comments_without_percent. vm_compute.
  intros H. repeat (destruct H as [H|H]; [discriminate H|]). exact H.
Defined.

Lemma cut_comment_percent (line : str) :
  forall esc pre post,
    cut_comment esc line = pre ++ "%"%char :: post ->
    (pre = [] /\ esc = true) \/ exists pre', pre = pre' ++ ["\"%char].
Proof.
  induction line as [|c l IH]; intros esc pre post H; simpl in H.
  - destruct pre; discriminate.
  - destruct (ascii_eqb c "%" && negb esc) eqn:E.
    + destruct pre; discriminate.
    + destruct pre as [|p pre]; simpl in H; inversion H; subst.
      * left. split; [reflexivity|].
        replace (ascii_eqb "%" "%") with true in E by reflexivity.
        now destruct esc.
      * right. apply IH in H2. destruct H2 as [[-> Hc]|(pre' & ->)].
        -- apply ascii_eqb_eq in Hc. subst. now exists [].
        -- now exists (p :: pre').
Qed.

Lemma join_percent_escaped (lines : list str) :
  Forall percent_escaped lines -> percent_escaped (join [newline] lines).
Proof.
  induction lines as [|l ls IH]; intros Hall pre post H.
  - destruct pre; discriminate.
  - inversion Hall as [|? ? Hl Hls]; subst.
    destruct ls as [|l' ls]; [now apply (Hl pre post)|].
    rewrite join_cons in H by discriminate.
    apply app_eq_app in H. destruct H as (m & [[E1 E2]|[E1 E2]]).
    + destruct m as [|x m]; simpl in E2; inversion E2; subst.
      apply (Hl pre m eq_refl).
    + destruct m as [|x m]; simpl in E2; inversion E2 as [[Hx Hj]]; subst.
      destruct (IH Hls m post Hj) as (pre' & ->).
      exists (l ++ newline :: pre'). now rewrite <- app_assoc.
Qed.

(** After [remove_comments] every percent sign left in the text is an
    escaped one: it stands right after a backslash. *)
Theorem remove_comments_percent_escaped (text : str) :
  percent_escaped (remove_comments text).
Proof.
  unfold remove_comments. apply join_percent_escaped.
  apply Forall_map. apply Forall_forall. intros l _ pre post H.
  apply cut_comment_percent in H. destruct H as [[_ H]|H]; [discriminate | exact H].
Qed.

(** ** Trimmed fields *)

Lemma lstrip_by_id (p : ascii -> bool) (s : str) :
  (forall c r, s = c :: r -> p c = false) -> lstrip_by p s = s.
Proof.
  destruct s as [|c s]; intros H; simpl; [reflexivity|].
  now rewrite (H c s eq_refl).
Qed.

Lemma rstrip_by_id (p : ascii -> bool) (s : str) :
  (forall r c, s = r ++ [c] -> p c = false) -> rstrip_by p s = s.
Proof.
  intros H. unfold rstrip_by. rewrite lstrip_by_id; [apply rev_involutive|].
  intros c r E. apply (H (rev r) c).
  rewrite <- (rev_involutive s), E. reflexivity.
Qed.

Lemma strip_idem (s : str) : strip (strip s) = strip s.
Proof.
  destruct (strip_spec s) as (pre & suf & _ & _ & _ & Hf & Hl).
  unfold strip at 1. rewrite (lstrip_by_id is_space (strip s) Hf).
  now apply rstrip_by_id.
Qed.

Lemma clean_content_strip (content : str) :
  strip (clean_content content) = clean_content content.
Proof. unfold clean_content. apply strip_idem. Qed.

Lemma title_of_strip (g2 : option str) (t : str) :
  title_of g2 = Some t -> strip t = t.
Proof.
  unfold title_of. destruct g2 as [g|]; [|discriminate].
  destruct (is_empty g); [discriminate|].
  intros H. inversion H. apply strip_idem.
Qed.

Lemma extract_label_strip (text : str) (start_pos : nat) (l : str) :
  fst (extract_label text start_pos) = Some l -> strip l = l.
Proof.
  unfold extract_label.
  destruct (match_at false label_pattern (slice text start_pos (start_pos + 200)))
    as [[n caps]|]; simpl; [|discriminate].
  intros H. inversion H. apply strip_idem.
Qed.

Lemma proof_fields_strip (pr : option (str * nat)) (ce : nat) (p : str) :
  fst (fst (proof_fields pr ce)) = Some p -> strip p = p.
Proof.
  unfold proof_fields. destruct pr as [[pc pe]|]; [|discriminate].
  destruct (negb (is_empty (clean_content pc))
            && (length (strip (clean_content pc)) <? 3)); [discriminate|].
  simpl. intros H. inversion H. apply clean_content_strip.
Qed.

(** Every text field of an emitted block is trimmed: the content, which
    has at least 3 characters, the proof, the title and the label carry
    no whitespace at either end. *)
Theorem parse_text_fields_trimmed (self : LaTeXParser) (text : str) (auto : bool)
        (blocks : list StatementBlock) :
  fst (parse_text self text auto) = Some blocks ->
  Forall (fun b =>
            strip (content_latex b) = content_latex b
            /\ 3 <= length (content_latex b)
            /\ (forall p, proof_latex b = Some p -> strip p = p)
            /\ (forall t, title b = Some t -> strip t = t)
            /\ (forall l, label b = Some l -> strip l = l)) blocks.
Proof.
  unfold parse_text. cbn [fst]. intros H.
  eapply parse_loop_Forall; [|constructor|exact H].
  intros pos b pos' Hs. apply parse_step_append_inv in Hs.
  destruct Hs as (m & content & ce & pr & _ & _ & Hl & _ & -> & _).
  cbn [content_latex proof_latex title label block_of].
  split; [apply clean_content_strip|]. split.
  { rewrite <- clean_content_strip. exact Hl. }
  split; [apply proof_fields_strip|].
  split; [apply title_of_strip | apply extract_label_strip].
Qed.

Lemma parse_text_fields_trimmed_witness :
  Forall (fun b =>
            strip (content_latex b) = content_latex b
            /\ 3 <= length (content_latex b)
            /\ (forall p, proof_latex b = Some p -> strip p = p)
            /\ (forall t, title b = Some t -> strip t = t)
            /\ (forall l, label b = Some l -> strip l = l))
    [mkBlock (py "lemma") (Some (py "l1")) (Some (py "Zorn")) (py "abc")
       (Some (py "xyz")) None].
Proof.
  apply (parse_text_fields_trimmed (init [])
           (py "\begin{lemma}[ Zorn ] \label{ l1 } abc \end{lemma}
\begin{proof} xyz \end{proof}") true).
  vm_compute. reflexivity.
Defined.

(** ** References *)

Lemma collect_refs_spec (ms : list captures) :
  forall acc,
    NoDup acc -> ~ In [] acc ->
    NoDup (collect_refs ms acc) /\ ~ In [] (collect_refs ms acc)
    /\ (exists more, collect_refs ms acc = acc ++ more)
    /\ (forall x, In x (collect_refs ms acc) <->
                  In x acc
                  \/ (x <> [] /\ exists caps, In caps ms
                                              /\ x = strip (group_str 1 caps))).
Proof.
  induction ms as [|caps ms IH]; intros acc Hnd Hne; cbn [collect_refs].
  - split; [assumption|]. split; [assumption|]. split.
    + exists []. now rewrite app_nil_r.
    + intros x. split; [tauto|]. intros [H|(_ & c & [] & _)]. exact H.
  - cbv zeta. set (r := strip (group_str 1 caps)).
    destruct (negb (is_empty r) && negb (mem r acc)) eqn:E.
    + apply andb_true_iff in E. destruct E as [E1 E2].
      apply negb_true_iff in E1, E2. apply is_empty_false in E1.
      assert (Hnin : ~ In r acc).
      { intros Hin. apply mem_In in Hin. congruence. }
      destruct (IH (acc ++ [r])) as (H1 & H2 & (more & H3) & H4).
      * apply NoDup_app; [assumption | constructor; [tauto | constructor] |].
        intros x Hx [<-|[]]. contradiction.
      * rewrite in_app_iff. intros [H|[H|[]]]; [contradiction|]. exact (E1 H).
      * split; [assumption|]. split; [assumption|]. split.
        -- exists (r :: more). etransitivity; [exact H3|].
           now rewrite <- app_assoc.
        -- intros x. rewrite H4, in_app_iff. simpl. split.
           ++ intros [[H|[H|[]]]|(Hx & c & Hc & Ec)].
              ** now left.
              ** right. subst x. split; [assumption|]. exists caps. split; [now left | reflexivity].
              ** right. split; [assumption|]. exists c. split; [now right | assumption].
           ++ intros [H|(Hx & c & [Hc|Hc] & Ec)].
              ** left. now left.
              ** subst c. left. right. left. now symmetry.
              ** right. split; [assumption|]. now exists c.
    + destruct (IH acc Hnd Hne) as (H1 & H2 & H3 & H4).
      split; [assumption|]. split; [assumption|]. split; [assumption|].
      intros x. rewrite H4. split.
      * intros [H|(Hx & c & Hc & Ec)]; [now left|].
        right. split; [assumption|]. exists c. split; [now right | assumption].
      * intros [H|(Hx & c & [Hc|Hc] & Ec)]; [now left | | ].
        -- subst c. fold r in Ec. subst x.
           apply andb_false_iff in E. destruct E as [E|E].
           ++ apply negb_false_iff, is_empty_true in E. contradiction.
           ++ apply negb_false_iff, mem_In in E. now left.
        -- right. split; [assumption|]. now exists c.
Qed.

(** [extract_references] returns each referenced label once, in the
    order of first appearance: the list has no duplicate and no empty
    label, and holds exactly the non-empty trimmed arguments of the
    [\ref] and [\eqref] commands of the text. *)
Theorem extract_references_spec (text : str) :
  NoDup (extract_references text)
  /\ ~ In [] (extract_references text)
  /\ (forall x, In x (extract_references text) <->
                x <> [] /\ exists caps, In caps (finditer false ref_pattern text)
                                        /\ x = strip (group_str 1 caps)).
Proof.
  unfold extract_references.
  destruct (collect_refs_spec (finditer false ref_pattern text) [])
    as (H1 & H2 & _ & H4); [constructor | tauto |].
  split; [assumption|]. split; [assumption|].
  intros x. rewrite H4. simpl. tauto.
Qed.

Lemma merge_refs_spec (proof_refs : list str) :
  forall all_refs,
    NoDup all_refs ->
    NoDup (merge_refs all_refs proof_refs)
    /\ (exists more, merge_refs all_refs proof_refs = all_refs ++ more)
    /\ (forall x, In x (merge_refs all_refs proof_refs)
                  <-> In x all_refs \/ In x proof_refs).
Proof.
  induction proof_refs as [|r rs IH]; intros acc Hnd; cbn [merge_refs].
  - split; [assumption|]. split; [exists []; now rewrite app_nil_r|].
    intros x. simpl. tauto.
  - destruct (mem r acc) eqn:E; cbn [negb].
    + destruct (IH acc Hnd) as (H1 & H2 & H3).
      split; [assumption|]. split; [assumption|].
      intros x. rewrite H3. simpl. apply mem_In in E. split.
      * tauto.
      * intros [H|[H|H]]; [tauto | subst; tauto | tauto].
    + assert (Hnin : ~ In r acc).
      { intros Hin. apply mem_In in Hin. congruence. }
      destruct (IH (acc ++ [r])) as (H1 & (more & H2) & H3).
      * apply NoDup_app; [assumption | constructor; [tauto | constructor] |].
        intros x Hx [<-|[]]. contradiction.
      * split; [assumption|]. split.
        -- exists (r :: more). etransitivity; [exact H2|].
           now rewrite <- app_assoc.
        -- intros x. rewrite H3, in_app_iff. simpl. tauto.
Qed.

(** The [references] field of an emitted block is [None] or a list that
    is not empty, has no duplicate and no empty label: it starts with
    the references of the statement's content, in their order, and goes
    on with those of the proof that the content does not have; the
    references of a proof that was not attached are not recorded. *)
Theorem parse_step_references (self : LaTeXParser) (text : str) (pos : nat)
        (b : StatementBlock) (pos' : nat) :
  parse_step self text pos = Some (Append b pos') ->
  references b <> Some []
  /\ forall l,
      references b = Some l ->
      NoDup l /\ ~ In [] l
      /\ exists m content content_end proof_result,
          re_search true (env_pattern self) text pos = Some m
          /\ extract_environment text (snd (extract_label text (m_end m)))
               (group_str 1 (m_groups m)) = Some (content, content_end)
          /\ extract_proof self text content_end = Some proof_result
          /\ (exists more, l = extract_references content ++ more)
          /\ forall x,
              In x l <->
              In x (extract_references content)
              \/ exists proof_content proof_end,
                  proof_result = Some (proof_content, proof_end)
                  /\ proof_latex b <> None
                  /\ In x (extract_references proof_content).
Proof.
  intros H. apply parse_step_append_inv in H.
  destruct H as (m & content & ce & pr & Hm & He & _ & Hp & -> & _).
  cbn [references proof_latex block_of].
  set (prefs := snd (fst (proof_fields pr ce))).
  destruct (extract_references_spec content) as (Hc1 & Hc2 & _).
  destruct (merge_refs_spec prefs (extract_references content) Hc1)
    as (H1 & H2 & H3).
  assert (Hprefs : forall x, In x prefs <->
                             exists pc pe, pr = Some (pc, pe)
                                           /\ fst (fst (proof_fields pr ce)) <> None
                                           /\ In x (extract_references pc)).
  { intros x. unfold prefs, proof_fields. destruct pr as [[pc pe]|].
    - destruct (negb (is_empty (clean_content pc))
                && (length (strip (clean_content pc)) <? 3)); cbn [fst snd].
      + split; [intros [] | intros (? & ? & _ & Hn & _); congruence].
      + split.
        * intros Hx. exists pc, pe. repeat split; [discriminate | assumption].
        * intros (pc' & pe' & E & _ & Hx). inversion E; subst. assumption.
    - cbn [fst snd]. split; [intros [] | intros (? & ? & E & _); discriminate]. }
  split.
  - destruct (is_empty (merge_refs (extract_references content) prefs)) eqn:E;
      [discriminate|].
    apply is_empty_false in E. congruence.
  - intros l Hl.
    destruct (is_empty (merge_refs (extract_references content) prefs));
      [discriminate|].
    inversion Hl; subst l. split; [assumption|]. split.
    + rewrite H3. intros [Hx|Hx]; [contradiction|].
      apply Hprefs in Hx. destruct Hx as (pc & pe & _ & _ & Hx).
      now apply extract_references_spec in Hx.
    + exists m, content, ce, pr. repeat split; try assumption.
      * intros Hx. apply H3 in Hx. destruct Hx as [Hx|Hx]; [now left|].
        right. now apply Hprefs.
      * intros [Hx|Hx]; apply H3; [now left|]. right. now apply Hprefs.
Qed.

Lemma parse_step_references_witness :
  references
    (mkBlock (py "lemma") None None (py "see \ref{a} and \ref{b}")
       (Some (py "by \eqref{b} and \ref{c}")) (Some [py "a"; py "b"; py "c"]))
  <> Some [].
Proof.
  apply (proj1 (parse_step_references (init [])
    (py "\begin{lemma}see \ref{a} and \ref{b}\end{lemma}\begin{proof}by \eqref{b} and \ref{c}\end{proof}")
    0 (mkBlock (py "lemma") None None (py "see \ref{a} and \ref{b}")
         (Some (py "by \eqref{b} and \ref{c}")) (Some [py "a"; py "b"; py "c"]))
    95 ltac:(vm_compute; reflexivity))).
Defined.

(** ** The normaliser, again *)

Lemma lower_char_idem (c : ascii) : lower_char (lower_char c) = lower_char c.
Proof. destruct c as [[] [] [] [] [] [] [] []]; reflexivity. Qed.

Lemma is_star_lower_char (c : ascii) : is_star (lower_char c) = is_star c.
Proof. destruct c as [[] [] [] [] [] [] [] []]; reflexivity. Qed.

Lemma lower_idem (s : str) : lower (lower s) = lower s.
Proof.
  unfold lower. rewrite map_map. apply map_ext. apply lower_char_idem.
Qed.

Lemma lstrip_star_lower (s : str) :
  lstrip_by is_star (lower s) = lower (lstrip_by is_star s).
Proof.
  induction s as [|c s IH]; simpl; [reflexivity|].
  rewrite is_star_lower_char. destruct (is_star c); [exact IH | reflexivity].
Qed.

Lemma rstrip_star_lower (s : str) : rstrip_star (lower s) = lower (rstrip_star s).
Proof.
  unfold rstrip_star, rstrip_by, lower.
  rewrite <- map_rev. fold (lower (rev s)). rewrite lstrip_star_lower.
  unfold lower. now rewrite map_rev.
Qed.

Lemma rstrip_star_idem (s : str) : rstrip_star (rstrip_star s) = rstrip_star s.
Proof.
  unfold rstrip_star at 1. apply rstrip_by_id.
  intros r c H. destruct (rstrip_by_spec is_star s) as (_ & _ & _ & Hl).
  now apply (Hl r c).
Qed.

Lemma lstrip_by_app_all (p : ascii -> bool) (a b : str) :
  forallb p a = true -> lstrip_by p (a ++ b) = lstrip_by p b.
Proof.
  induction a as [|c a IH]; simpl; [reflexivity|].
  intros H. apply andb_true_iff in H. destruct H as [Hc Ha]. rewrite Hc. now apply IH.
Qed.

Lemma rstrip_star_app (s stars : str) :
  Forall (eq "*"%char) stars -> rstrip_star (s ++ stars) = rstrip_star s.
Proof.
  intros H. unfold rstrip_star, rstrip_by. rewrite rev_app_distr.
  rewrite lstrip_by_app_all; [reflexivity|].
  apply forallb_forall. intros x Hx. apply in_rev in Hx.
  rewrite Forall_forall in H. now rewrite <- (H x Hx).
Qed.

(** The normaliser's result depends on the lowercased, star-stripped
    name only. *)
Lemma normalize_env_type_key (a b : str) :
  rstrip_star (lower a) = rstrip_star (lower b) ->
  normalize_env_type a = normalize_env_type b.
Proof. intros E. unfold normalize_env_type. now rewrite E. Qed.

Lemma normalize_canonical (k : str) :
  In k MATH_ENVIRONMENTS -> normalize_env_type k = k.
Proof.
  unfold MATH_ENVIRONMENTS. simpl.
  intros [<-|[<-|[<-|[<-|[<-|[]]]]]]; reflexivity.
Qed.

Lemma normalize_env_type_cases (raw : str) :
  In (normalize_env_type raw) MATH_ENVIRONMENTS
  \/ normalize_env_type raw = rstrip_star (lower raw).
Proof.
  unfold normalize_env_type.
  destruct (dict_get (rstrip_star (lower raw)) ENVIRONMENT_VARIANTS) as [k|] eqn:Ed.
  { left. now apply variants_canonical in Ed. }
  destruct (mem (rstrip_star (lower raw)) MATH_ENVIRONMENTS) eqn:Em.
  { left. now apply mem_In. }
  destruct (contains (py "th") _ || contains (py "teo") _);
    [left; apply mem_In; reflexivity|].
  destruct (contains (py "def") _); [left; apply mem_In; reflexivity|].
  destruct (contains (py "lem") _); [left; apply mem_In; reflexivity|].
  destruct (contains (py "prop") _); [left; apply mem_In; reflexivity|].
  destruct (contains (py "cor") _); [left; apply mem_In; reflexivity|].
  now right.
Qed.

(** [normalize_env_type] sees neither the case of a name nor its
    trailing stars, returns a lowercase name without trailing star, and
    returns a name it has returned as it is. *)
Theorem normalize_env_type_stable (raw : str) :
  (forall other, lower other = lower raw ->
                 normalize_env_type other = normalize_env_type raw)
  /\ (forall stars, Forall (eq "*"%char) stars ->
                    normalize_env_type (raw ++ stars) = normalize_env_type raw)
  /\ lower (normalize_env_type raw) = normalize_env_type raw
  /\ rstrip_star (normalize_env_type raw) = normalize_env_type raw
  /\ normalize_env_type (normalize_env_type raw) = normalize_env_type raw.
Proof.
  assert (Hl : lower (normalize_env_type raw) = normalize_env_type raw
               /\ rstrip_star (normalize_env_type raw) = normalize_env_type raw).
  { destruct (normalize_env_type_cases raw) as [H| ->].
    - revert H. generalize (normalize_env_type raw). intros k.
      unfold MATH_ENVIRONMENTS. simpl.
      intros [<-|[<-|[<-|[<-|[<-|[]]]]]]; split; reflexivity.
    - split.
      + rewrite rstrip_star_lower, lower_idem. reflexivity.
      + apply rstrip_star_idem. }
  split; [|split; [|split; [|split]]]; try apply Hl.
  - intros other H. apply normalize_env_type_key. now rewrite H.
  - intros stars H. apply normalize_env_type_key.
    rewrite lower_app, rstrip_star_app; [reflexivity|].
    unfold lower. apply Forall_map. eapply Forall_impl; [|exact H].
    intros c <-. reflexivity.
  - destruct (normalize_env_type_cases raw) as [H|H].
    + now apply normalize_canonical.
    + rewrite H. transitivity (normalize_env_type raw); [|exact H].
      apply normalize_env_type_key.
      rewrite (rstrip_star_lower raw), lower_idem, <- (rstrip_star_lower raw).
      apply rstrip_star_idem.
Qed.

Lemma normalize_env_type_stable_witness :
  normalize_env_type (py "TEOREMA**") = normalize_env_type (py "teorema").
Proof.
  rewrite <- (proj1 (proj2 (normalize_env_type_stable (py "teorema")))
                (py "**") ltac:(repeat constructor)).
  apply (proj1 (normalize_env_type_stable (py "teorema**"))). reflexivity.
Defined.

(** ** The kinds of the emitted blocks *)


Lemma all_envs_In (custom : list str) (name : str) :
  In name (all_envs custom)
  <-> In name MATH_ENVIRONMENTS \/ In name (map fst ENVIRONMENT_VARIANTS)
      \/ In name custom.
Proof.
  unfold all_envs. rewrite nodup_In, !in_app_iff. tauto.
Qed.

Lemma all_envs_not_nil (custom : list str) : all_envs custom <> [].
Proof.
  intros H. assert (Hin : In (py "definition") (all_envs custom)).
  { apply all_envs_In. left. now left. }
  rewrite H in Hin. exact Hin.
Qed.




(** ** Declared environments *)

Lemma collect_newtheorem_In (ms : list captures) :
  forall acc x,
    In x (collect_newtheorem ms acc) <->
    In x acc
    \/ (x <> [] /\ ~ In x MATH_ENVIRONMENTS
        /\ exists caps, In caps ms /\ x = strip (group_str 1 caps)).
Proof.
  induction ms as [|caps ms IH]; intros acc x; cbn [collect_newtheorem]; cbv zeta.
  - split; [tauto | intros [H|(_ & _ & c & [] & _)]; exact H].
  - set (r := strip (group_str 1 caps)).
    destruct (negb (is_empty r) && negb (mem r MATH_ENVIRONMENTS)) eqn:E.
    + apply andb_true_iff in E. destruct E as [E1 E2].
      apply negb_true_iff in E1, E2. apply is_empty_false in E1.
      assert (Hm : ~ In r MATH_ENVIRONMENTS).
      { intros Hin. apply mem_In in Hin. congruence. }
      rewrite IH, in_app_iff. simpl. split.
      * intros [[H|[H|[]]]|(H1 & H2 & c & Hc & Ec)].
        -- now left.
        -- right. subst x. repeat split; try assumption. exists caps. split; [now left | reflexivity].
        -- right. repeat split; try assumption. exists c. split; [now right | assumption].
      * intros [H|(H1 & H2 & c & [Hc|Hc] & Ec)].
        -- left. now left.
        -- subst c. left. right. left. now symmetry.
        -- right. repeat split; try assumption. now exists c.
    + rewrite IH. split.
      * intros [H|(H1 & H2 & c & Hc & Ec)]; [now left|].
        right. repeat split; try assumption. exists c. split; [now right | assumption].
      * intros [H|(H1 & H2 & c & [Hc|Hc] & Ec)]; [now left | | ].
        -- exfalso. subst c. fold r in Ec. subst x.
           apply andb_false_iff in E. destruct E as [E|E].
           ++ apply negb_false_iff, is_empty_true in E. contradiction.
           ++ apply negb_false_iff, mem_In in E. contradiction.
        -- right. repeat split; try assumption. now exists c.
Qed.

Lemma collect_theoremstyle_In (ms : list captures) :
  forall acc x,
    In x (collect_theoremstyle ms acc) <->
    In x acc
    \/ (x <> [] /\ ~ In x MATH_ENVIRONMENTS
        /\ exists caps, In caps ms /\ x = strip (group_str 1 caps)).
Proof.
  induction ms as [|caps ms IH]; intros acc x; cbn [collect_theoremstyle]; cbv zeta.
  - split; [tauto | intros [H|(_ & _ & c & [] & _)]; exact H].
  - set (r := strip (group_str 1 caps)).
    destruct (negb (is_empty r) && negb (mem r MATH_ENVIRONMENTS)
              && negb (mem r acc)) eqn:E.
    + apply andb_true_iff in E. destruct E as [E E3].
      apply andb_true_iff in E. destruct E as [E1 E2].
      apply negb_true_iff in E1, E2. apply is_empty_false in E1.
      assert (Hm : ~ In r MATH_ENVIRONMENTS).
      { intros Hin. apply mem_In in Hin. congruence. }
      rewrite IH, in_app_iff. simpl. split.
      * intros [[H|[H|[]]]|(H1 & H2 & c & Hc & Ec)].
        -- now left.
        -- right. subst x. repeat split; try assumption. exists caps. split; [now left | reflexivity].
        -- right. repeat split; try assumption. exists c. split; [now right | assumption].
      * intros [H|(H1 & H2 & c & [Hc|Hc] & Ec)].
        -- left. now left.
        -- subst c. left. right. left. now symmetry.
        -- right. repeat split; try assumption. now exists c.
    + rewrite IH. split.
      * intros [H|(H1 & H2 & c & Hc & Ec)]; [now left|].
        right. repeat split; try assumption. exists c. split; [now right | assumption].
      * intros [H|(H1 & H2 & c & [Hc|Hc] & Ec)]; [now left | | ].
        -- subst c. fold r in Ec. subst x.
           apply andb_false_iff in E. destruct E as [E|E].
           ++ apply andb_false_iff in E. destruct E as [E|E].
              ** apply negb_false_iff, is_empty_true in E. contradiction.
              ** apply negb_false_iff, mem_In in E. contradiction.
           ++ apply negb_false_iff, mem_In in E. now left.
        -- right. repeat split; try assumption. now exists c.
Qed.

(** [detect_custom_environments] returns exactly the names declared in
    one of the two forms that are, once trimmed, neither empty nor one
    of the five canonical names; alias names are not held back. *)
Theorem detect_custom_environments_In (text : str) (x : str) :
  In x (detect_custom_environments text) <->
  x <> [] /\ ~ In x MATH_ENVIRONMENTS
  /\ exists caps,
      (In caps (finditer false newtheorem_pattern text)
       \/ In caps (finditer false theoremstyle_pattern text))
      /\ x = strip (group_str 1 caps).
Proof.
  unfold detect_custom_environments.
  rewrite collect_theoremstyle_In, collect_newtheorem_In. simpl. split.
  - intros [[[]|(H1 & H2 & c & Hc & Ec)]|(H1 & H2 & c & Hc & Ec)];
      repeat split; try assumption; exists c; tauto.
  - intros (H1 & H2 & c & [Hc|Hc] & Ec).
    + left. right. repeat split; try assumption. now exists c.
    + right. repeat split; try assumption. now exists c.
Qed.

(** A custom name that the document declares is recognised by the
    registry that [parse_text] builds for it: an opening marker of that
    name, in any case and with or without a star, is matched. *)
Theorem declared_name_recognised (self : LaTeXParser) (text : str)
        (name written star rest : str) :
  In name (detect_custom_environments text) ->
  lower written = lower name ->
  star_suffix star ->
  match_at true (env_pattern (registry_for self text true))
    (py "\begin{" ++ written ++ star ++ py "}" ++ rest) <> None.
Proof.
  intros Hin Hw Hs. unfold registry_for.
  destruct (detect_custom_environments text) as [|d ds] eqn:Ed; [contradiction|].
  cbn [is_empty negb]. unfold init. cbn [env_pattern]. rewrite <- Ed in *.
  replace (py "\begin{" ++ written ++ star ++ py "}" ++ rest)
    with ((py "\begin{" ++ written ++ star ++ py "}" ++ []) ++ rest)
    by (now rewrite <- !app_assoc).
  apply match_at_complete with [] [(1, written)].
  unfold env_pattern_of.
  econstructor; [apply matches_lit; split; reflexivity|].
  econstructor.
  { constructor. apply matches_alts_lit; [apply all_envs_not_nil|].
    split; [reflexivity|]. exists name. split; [|assumption].
    apply all_envs_In. right. now right. }
  econstructor.
  { apply matches_opt_star. split; [reflexivity|].
    now rewrite (lower_star_suffix star Hs). }
  econstructor; [apply matches_Chr; split; reflexivity | apply M_OptNone].
Qed.

Lemma declared_name_recognised_witness :
  match_at true
    (env_pattern (registry_for (init []) (py "\newtheorem{claim}{Claim}") true))
    (py "\begin{" ++ py "Claim" ++ py "*" ++ py "}" ++ py "abc") <> None.
Proof.
  apply declared_name_recognised with (py "claim").
  - vm_compute. now left.
  - reflexivity.
  - now right.
Defined.

(** ** The label window *)

(** [extract_label] looks at no more than the 200 characters that follow
    [start_pos]: without a label it returns the position as it is, with
    one it moves it forward by at least 9 characters (the shortest
    [\label{x}]) and at most 200, never past the end of the text. *)
Theorem extract_label_window (text : str) (start_pos : nat) :
  (fst (extract_label text start_pos) = None ->
   snd (extract_label text start_pos) = start_pos)
  /\ (fst (extract_label text start_pos) <> None ->
      start_pos + 9 <= snd (extract_label text start_pos) <= start_pos + 200
      /\ snd (extract_label text start_pos) <= length text)
  /\ (forall text',
         slice text' start_pos (start_pos + 200)
         = slice text start_pos (start_pos + 200) ->
         extract_label text' start_pos = extract_label text start_pos).
Proof.
  unfold extract_label. split; [|split].
  - destruct (match_at false label_pattern _) as [[n caps]|]; simpl;
      [discriminate | reflexivity].
  - destruct (match_at false label_pattern (slice text start_pos (start_pos + 200)))
      as [[n caps]|] eqn:E; simpl; [|congruence].
    intros _. apply match_at_bound in E. simpl in E.
    unfold slice in E. rewrite length_firstn, length_skipn in E. lia.
  - intros text' H. now rewrite H.
Qed.

Lemma extract_label_window_witness :
  13 + 9 <= snd (extract_label (py "\begin{lemma} \label{a}abc") 13) <= 13 + 200
  /\ snd (extract_label (py "\begin{lemma} \label{a}abc") 13)
     <= length (py "\begin{lemma} \label{a}abc").
Proof.
  apply (proj1 (proj2 (extract_label_window
                         (py "\begin{lemma} \label{a}abc") 13))).
  vm_compute. discriminate.
Defined.

(** * Properties of the command line's reports *)

(** ** Dictionaries *)

Lemma str_eqb_refl (k : str) : str_eqb k k = true.
Proof. now apply str_eqb_eq. Qed.

Lemma str_eqb_neq (k k' : str) : k <> k' -> str_eqb k k' = false.
Proof.
  intros H. destruct (str_eqb k k') eqn:E; [|reflexivity].
  apply str_eqb_eq in E. contradiction.
Qed.

Lemma dict_lookup_set_same (V : Type) (k : str) (v : V) (d : list (str * V)) :
  dict_lookup k (dict_set k v d) = Some v.
Proof.
  induction d as [|[k' v'] d IH]; simpl.
  - now rewrite str_eqb_refl.
  - destruct (str_eqb k k') eqn:E; simpl.
    + now rewrite str_eqb_refl.
    + now rewrite E.
Qed.

Lemma dict_lookup_set_other (V : Type) (k k' : str) (v : V) (d : list (str * V)) :
  k <> k' -> dict_lookup k' (dict_set k v d) = dict_lookup k' d.
Proof.
  intros Hne. induction d as [|[k0 v0] d IH]; simpl.
  - rewrite str_eqb_neq; [reflexivity | congruence].
  - destruct (str_eqb k k0) eqn:E; simpl.
    + apply str_eqb_eq in E. subst k0.
      rewrite str_eqb_neq; [reflexivity | congruence].
    + now rewrite IH.
Qed.

(** ** The label map *)

Lemma label_map_loop_app (bs : list StatementBlock) :
  forall i b lm,
    label_map_loop i (bs ++ [b]) lm
    = label_map_loop (i + length bs) [b] (label_map_loop i bs lm).
Proof.
  induction bs as [|x bs IH]; intros i b lm.
  - simpl. now rewrite Nat.add_0_r.
  - cbn [app label_map_loop length]. rewrite IH.
    now replace (S i + length bs) with (i + S (length bs)) by lia.
Qed.

(** [label_map] maps a label to the last block that carries it: the
    entry of a label gives the rank (from 1), the kind and the title of
    the last block with that label, and a label has no entry exactly
    when no block carries it as a non-empty label. *)
Theorem label_map_last (blocks : list StatementBlock) (ref : str) :
  match dict_lookup ref (label_map blocks) with
  | Some d =>
      ref <> []
      /\ exists k b,
          nth_error blocks k = Some b /\ label b = Some ref
          /\ d = mkDep (k + 1) (type b) (title b)
          /\ forall k' b', k < k' -> nth_error blocks k' = Some b' ->
                           label b' <> Some ref
  | None => ref <> [] -> forall b, In b blocks -> label b <> Some ref
  end.
Proof.
  unfold label_map. induction blocks as [|b bs IH] using rev_ind.
  - simpl. intros _ b [].
  - rewrite label_map_loop_app. cbn [label_map_loop]. simpl Nat.add.
    set (lm := label_map_loop 0 bs []) in *.
    assert (Hkeep :
              label b <> Some ref \/ ref = [] ->
              match dict_lookup ref lm with
              | Some d =>
                  ref <> []
                  /\ exists k b0,
                      nth_error (bs ++ [b]) k = Some b0 /\ label b0 = Some ref
                      /\ d = mkDep (k + 1) (type b0) (title b0)
                      /\ forall k' b', k < k' ->
                                       nth_error (bs ++ [b]) k' = Some b' ->
                                       label b' <> Some ref
              | None => ref <> [] -> forall b0, In b0 (bs ++ [b]) ->
                                                label b0 <> Some ref
              end).
    { intros Hb. destruct (dict_lookup ref lm) as [d|].
      - destruct IH as (Hne & k & b0 & Hk & Hl & Hd & Hlast).
        split; [assumption|]. exists k, b0.
        assert (Hlt : k < length bs) by (apply nth_error_Some; congruence).
        split; [now rewrite nth_error_app1|]. split; [assumption|].
        split; [assumption|].
        intros k' b' Hk' Hn.
        destruct (Nat.lt_ge_cases k' (length bs)) as [Hin|Hout].
        + rewrite nth_error_app1 in Hn by assumption. now apply (Hlast k' b').
        + rewrite nth_error_app2 in Hn by assumption.
          destruct (k' - length bs) as [|?]; simpl in Hn.
          * inversion Hn; subst. destruct Hb as [Hb|Hb]; [assumption | congruence].
          * destruct n; discriminate.
      - intros Hne b0 Hin. apply in_app_iff in Hin. destruct Hin as [Hin|[<-|[]]].
        + now apply IH.
        + destruct Hb as [Hb|Hb]; [assumption | contradiction]. }
    destruct (label b) as [l|] eqn:El.
    + destruct (is_empty l) eqn:Ee; cbn [negb].
      * apply is_empty_true in Ee. subst l. apply Hkeep.
        destruct ref; [now right | left; discriminate].
      * apply is_empty_false in Ee.
        destruct (str_eq_dec l ref) as [->|Hne].
        -- rewrite dict_lookup_set_same. split; [assumption|].
           exists (length bs), b.
           split; [rewrite nth_error_app2, Nat.sub_diag by lia; reflexivity|].
           split; [assumption|].
           split; [now replace (length bs + 0 + 1) with (length bs + 1) by lia|].
           intros k' b' Hk' Hn.
           assert (k' < length (bs ++ [b])) by (apply nth_error_Some; congruence).
           rewrite length_app in *. simpl in *. lia.
        -- rewrite dict_lookup_set_other by assumption. apply Hkeep.
           left. congruence.
    + apply Hkeep. left. discriminate.
Qed.

(** ** The count of each kind *)

Lemma dict_set_keys (V : Type) (k : str) (v : V) (d : list (str * V)) :
  map fst (dict_set k v d)
  = match dict_lookup k d with
    | Some _ => map fst d
    | None => map fst d ++ [k]
    end.
Proof.
  induction d as [|[k' v'] d IH]; simpl; [reflexivity|].
  destruct (str_eqb k k') eqn:E; simpl.
  - apply str_eqb_eq in E. now subst.
  - rewrite IH. now destruct (dict_lookup k d).
Qed.

Lemma dict_lookup_None (V : Type) (k : str) (d : list (str * V)) :
  dict_lookup k d = None -> ~ In k (map fst d).
Proof.
  induction d as [|[k' v'] d IH]; simpl; [tauto|].
  destruct (str_eqb k k') eqn:E; [discriminate|].
  intros H [->|Hin]; [|now apply IH].
  now rewrite str_eqb_refl in E.
Qed.

Lemma dict_set_NoDup (V : Type) (k : str) (v : V) (d : list (str * V)) :
  NoDup (map fst d) -> NoDup (map fst (dict_set k v d)).
Proof.
  intros H. rewrite dict_set_keys.
  destruct (dict_lookup k d) eqn:E; [assumption|].
  apply dict_lookup_None in E.
  apply NoDup_app; [assumption | repeat constructor; simpl; tauto |].
  intros x Hx [<-|[]]. contradiction.
Qed.

Lemma dict_set_sum (k : str) (v : nat) (d : list (str * nat)) :
  list_sum (map snd (dict_set k v d))
  + match dict_lookup k d with Some n => n | None => 0 end
  = list_sum (map snd d) + v.
Proof.
  induction d as [|[k' v'] d IH]; simpl; [lia|].
  destruct (str_eqb k k') eqn:E; simpl; lia.
Qed.

Lemma count_type_cons (t : str) (b : StatementBlock) (bs : list StatementBlock) :
  count_type t (b :: bs)
  = (if str_eqb (type b) t then 1 else 0) + count_type t bs.
Proof.
  unfold count_type. simpl. now destruct (str_eqb (type b) t).
Qed.

Lemma by_type_loop_lookup (bs : list StatementBlock) :
  forall acc t,
    dict_lookup t (by_type_loop bs acc)
    = match dict_lookup t acc with
      | Some n => Some (n + count_type t bs)
      | None => if count_type t bs =? 0 then None else Some (count_type t bs)
      end.
Proof.
  induction bs as [|b bs IH]; intros acc t.
  - simpl. destruct (dict_lookup t acc); [f_equal; unfold count_type; simpl; lia
                                         | reflexivity].
  - cbn [by_type_loop]. rewrite IH, count_type_cons.
    destruct (str_eqb (type b) t) eqn:E.
    + apply str_eqb_eq in E. subst t. rewrite dict_lookup_set_same.
      destruct (dict_lookup (type b) acc); [f_equal; lia|].
      simpl. reflexivity.
    + assert (Hne : type b <> t)
        by (intros Ht; rewrite Ht, str_eqb_refl in E; discriminate).
      rewrite dict_lookup_set_other by assumption. reflexivity.
Qed.

Lemma by_type_loop_sum (bs : list StatementBlock) :
  forall acc,
    list_sum (map snd (by_type_loop bs acc))
    = list_sum (map snd acc) + length bs.
Proof.
  induction bs as [|b bs IH]; intros acc; cbn [by_type_loop length]; [lia|].
  rewrite IH.
  pose proof (dict_set_sum (type b)
                (match dict_lookup (type b) acc with
                 | Some n => n | None => 0 end + 1) acc).
  lia.
Qed.

Lemma by_type_loop_NoDup (bs : list StatementBlock) :
  forall acc, NoDup (map fst acc) -> NoDup (map fst (by_type_loop bs acc)).
Proof.
  induction bs as [|b bs IH]; intros acc H; cbn [by_type_loop]; [assumption|].
  apply IH. now apply dict_set_NoDup.
Qed.

(** [by_type], as [print_statistics] builds it, holds for each kind the
    number of blocks of that kind, and no entry for a kind without
    blocks; each kind has one entry, and the counts add up to the number
    of blocks. *)
Theorem by_type_counts (blocks : list StatementBlock) :
  (forall t,
      dict_lookup t (by_type blocks)
      = if count_type t blocks =? 0 then None
        else Some (count_type t blocks))
  /\ NoDup (map fst (by_type blocks))
  /\ list_sum (map snd (by_type blocks)) = length blocks.
Proof.
  unfold by_type. split; [|split].
  - intros t. now rewrite by_type_loop_lookup.
  - apply by_type_loop_NoDup. constructor.
  - now rewrite by_type_loop_sum.
Qed.

(** ** The validation *)

Lemma validate_loop_spec (bs : list StatementBlock) :
  forall i issues warnings,
  exists more,
    validate_loop i bs issues warnings
    = (issues
         ++ map (fun p => block_message (fst p) (snd p)
                            (py "Sin demostraci" ++ [o_acute] ++ py "n"))
              (filter (fun p => needs_proof (snd p)
                                && negb (truthy (proof_latex (snd p))))
                      (enumerate_from i bs)),
       warnings ++ more)
    /\ length more <= 3 * length bs
    /\ (forallb block_passes bs = true <->
        filter (fun p => needs_proof (snd p)
                         && negb (truthy (proof_latex (snd p))))
               (enumerate_from i bs) = [] /\ more = []).
Proof.
  induction bs as [|b bs IH]; intros i issues warnings.
  - exists []. simpl. rewrite !app_nil_r. repeat split; auto.
  - cbn [validate_loop enumerate_from filter fst snd forallb length].
    cbv zeta.
    match goal with
    | |- exists more, validate_loop _ _ ?acc1 ?acc2 = _ /\ _ =>
        destruct (IH (S i) acc1 acc2) as (more & E & Hlen & Hiff)
    end.
    rewrite E. clear E IH. unfold block_passes.
    destruct (needs_proof b && negb (truthy (proof_latex b))) eqn:E1;
      destruct (has_math b) eqn:E2;
      destruct (length (strip (content_latex b)) <? 20) eqn:E3;
      destruct (needs_title b && negb (truthy (title b))) eqn:E4;
      cbn [negb map fst snd];
      rewrite <- ?app_assoc; cbn [app];
      (eexists; split; [reflexivity|]);
      (split; [cbn [length]; try rewrite length_app; cbn [length]; lia|]);
      assert (P1 : negb (needs_proof b) || truthy (proof_latex b)
                   = negb (needs_proof b && negb (truthy (proof_latex b))))
        by (destruct (needs_proof b), (truthy (proof_latex b)); reflexivity);
      assert (P4 : negb (needs_title b) || truthy (title b)
                   = negb (needs_title b && negb (truthy (title b))))
        by (destruct (needs_title b), (truthy (title b)); reflexivity);
      rewrite P1, P4, E1, E4; cbn [negb andb];
      try (split; [discriminate | intros [? ?]; discriminate]).
    exact Hiff.
Qed.

(** The issues of [validate_blocks] are, in the order of the blocks and
    numbered from 1, one message for each block of a kind that wants a
    proof and has none (absent or empty); there are at most three
    warnings for a block; and nothing is reported for an empty list. *)
Theorem validate_blocks_issues (blocks : list StatementBlock) :
  match validate_blocks blocks with
  | None => blocks = []
  | Some (issues, warnings) =>
      blocks <> []
      /\ issues
         = map (fun p => block_message (fst p) (snd p)
                           (py "Sin demostraci" ++ [o_acute] ++ py "n"))
             (filter (fun p => needs_proof (snd p)
                               && negb (truthy (proof_latex (snd p))))
                     (enumerate_from 1 blocks))
      /\ length warnings <= 3 * length blocks
  end.
Proof.
  unfold validate_blocks.
  destruct blocks as [|b bs]; [reflexivity|].
  cbn [is_empty].
  destruct (validate_loop_spec (b :: bs) 1 [] []) as (more & E & Hlen & _).
  rewrite E. cbn [app]. split; [discriminate|]. split; [reflexivity | assumption].
Qed.

(** [validate_blocks] finds nothing to report (no issue and no warning)
    exactly when the list is not empty and every block has a proof where
    its kind wants one, a mark of mathematics, twenty characters of
    trimmed content and a title where its kind wants one. *)
Theorem validate_blocks_passes (blocks : list StatementBlock) :
  validate_blocks blocks = Some ([], [])
  <-> blocks <> [] /\ Forall (fun b => block_passes b = true) blocks.
Proof.
  unfold validate_blocks. rewrite Forall_forall, <- forallb_forall.
  destruct blocks as [|b bs].
  - simpl. split; [discriminate | intros [H _]; now elim H].
  - cbn [is_empty].
    destruct (validate_loop_spec (b :: bs) 1 [] []) as (more & E & _ & Hiff).
    rewrite E. cbn [app]. split.
    + intros H. injection H as HI HW. split; [discriminate|].
      apply Hiff. split; [exact (map_eq_nil _ _ HI) | exact HW].
    + intros [_ H]. apply Hiff in H. destruct H as [-> ->]. reflexivity.
Qed.

(** * Further properties of the cleaning and of the walker *)

(** ** Runs of blanks *)

Lemma substring_suffix (w a b : str) :
  substring w b -> substring w (a ++ b).
Proof.
  intros (pre & post & ->). exists (a ++ pre), post.
  now rewrite <- !app_assoc.
Qed.


Lemma star_loop_always (A : Type) (p : ascii -> bool) (f : str -> A) (s : str) :
  star_loop p s (fun s' => Some (f s')) = Some (f (lstrip_by p s)).
Proof.
  induction s as [|c s IH]; simpl; [reflexivity|].
  destruct (p c); [now rewrite IH | reflexivity].
Qed.

Lemma lstrip_by_skipn (p : ascii -> bool) (s : str) :
  length (lstrip_by p s) <= length s
  /\ skipn (length s - length (lstrip_by p s)) s = lstrip_by p s.
Proof.
  destruct (lstrip_by_spec p s) as (pre & E & _ & _).
  assert (L : length s = length pre + length (lstrip_by p s))
    by (rewrite E at 1; apply length_app).
  split; [lia|].
  replace (length s - length (lstrip_by p s)) with (length pre) by lia.
  rewrite E at 1. rewrite skipn_app, skipn_all, Nat.sub_diag. reflexivity.
Qed.

Lemma re_sub_aux_skip (ic : bool) (r : re) (repl : captures -> str) (n : nat) :
  forall s, n <= length s ->
            re_sub_aux ic r repl n s = re_sub_aux ic r repl 0 (skipn n s).
Proof.
  induction n as [|n IH]; intros s Hn; [reflexivity|].
  destruct s as [|c s]; simpl in Hn; [lia|].
  cbn [re_sub_aux skipn]. apply IH. lia.
Qed.

(** One step of the last substitution of [clean_content]: a blank and
    the blanks that follow it give one space. *)
Lemma squeeze_cons (c : ascii) (s : str) :
  re_sub false (Plus is_blank) (repl_const (py " ")) (c :: s)
  = if is_blank c
    then " "%char :: re_sub false (Plus is_blank) (repl_const (py " "))
                       (lstrip_by is_blank s)
    else c :: re_sub false (Plus is_blank) (repl_const (py " ")) s.
Proof.
  unfold re_sub. cbn [re_sub_aux]. unfold match_at. cbn [rmatch].
  destruct (is_blank c) eqn:E; [|reflexivity].
  rewrite (star_loop_always _ is_blank
             (fun s' => (length (c :: s) - length s', @nil (nat * str)))).
  destruct (lstrip_by_skipn is_blank s) as [L Sk].
  cbn [length].
  replace (S (length s) - length (lstrip_by is_blank s))
    with (S (length s - length (lstrip_by is_blank s))) by lia.
  rewrite re_sub_aux_skip by lia. rewrite Sk. reflexivity.
Qed.

Lemma squeeze_blanks (n : nat) :
  forall s, length s <= n ->
    ~ In tab (re_sub false (Plus is_blank) (repl_const (py " ")) s)
    /\ ~ substring (py "  ") (re_sub false (Plus is_blank) (repl_const (py " ")) s).
Proof.
  induction n as [|n IH]; intros s Hn.
  - destruct s; [|simpl in Hn; lia]. split.
    + intros [].
    + intros (pre & post & E). destruct pre; discriminate.
  - destruct s as [|c s].
    + split; [intros [] | intros (pre & post & E); destruct pre; discriminate].
    + rewrite squeeze_cons. simpl in Hn.
      destruct (is_blank c) eqn:Ec.
      * destruct (lstrip_by_skipn is_blank s) as [L _].
        destruct (IH (lstrip_by is_blank s) ltac:(lia)) as [Ht Hd].
        split.
        -- intros [H|H]; [discriminate | contradiction].
        -- intros (pre & post & E). destruct pre as [|x pre].
           ++ simpl in E. injection E as E.
              destruct (lstrip_by_spec is_blank s) as (_ & _ & _ & Hfirst).
              destruct (lstrip_by is_blank s) as [|d t] eqn:El; [discriminate|].
              rewrite squeeze_cons in E. rewrite (Hfirst d t eq_refl) in E.
              injection E as -> _. discriminate (Hfirst _ _ eq_refl).
           ++ simpl in E. injection E as _ E. apply Hd. now exists pre, post.
      * destruct (IH s ltac:(lia)) as [Ht Hd]. split.
        -- intros [H|H]; [subst c; discriminate | contradiction].
        -- intros (pre & post & E). destruct pre as [|x pre].
           ++ simpl in E. injection E as -> _. discriminate.
           ++ simpl in E. injection E as _ E. apply Hd. now exists pre, post.
Qed.

(** A triple of newlines in the squeezed text was there before. *)
Lemma squeeze_newline (s r : str) :
  re_sub false (Plus is_blank) (repl_const (py " ")) s = newline :: r ->
  exists s', s = newline :: s'
             /\ r = re_sub false (Plus is_blank) (repl_const (py " ")) s'.
Proof.
  destruct s as [|c s]; [discriminate|].
  rewrite squeeze_cons. destruct (is_blank c); [discriminate|].
  intros H. injection H as -> <-. now exists s.
Qed.

Lemma squeeze_newlines (n : nat) :
  forall s, length s <= n ->
    substring [newline; newline; newline]
      (re_sub false (Plus is_blank) (repl_const (py " ")) s) ->
    substring [newline; newline; newline] s.
Proof.
  induction n as [|n IH]; intros s Hn.
  - destruct s; [|simpl in Hn; lia].
    intros (pre & post & E). destruct pre; discriminate.
  - destruct s as [|c s].
    + intros (pre & post & E). destruct pre; discriminate.
    + rewrite squeeze_cons. simpl in Hn.
      destruct (lstrip_by_skipn is_blank s) as [L _].
      destruct (is_blank c) eqn:Ec; intros (pre & post & E).
      * destruct pre as [|x pre]; [discriminate|].
        simpl in E. injection E as _ E.
        destruct (lstrip_by_spec is_blank s) as (p & Es & _ & _).
        rewrite Es. apply (substring_suffix _ (c :: p)).
        apply IH; [lia|]. now exists pre, post.
      * destruct pre as [|x pre].
        -- simpl in E. injection E as -> E.
           apply squeeze_newline in E. destruct E as (s1 & -> & E).
           symmetry in E.
           apply squeeze_newline in E. destruct E as (s2 & -> & _).
           now exists [], s2.
        -- simpl in E. injection E as _ E.
           apply (substring_suffix _ [c]). apply IH; [lia|].
           now exists pre, post.
Qed.

(** ** Runs of blank lines *)

Lemma rmatch_Cat (A : Type) (ic : bool) (r1 r2 : re) (s : str) (caps : captures)
      (k : str -> captures -> option A) :
  rmatch ic (Cat r1 r2) s caps k
  = rmatch ic r1 s caps (fun s' caps' => rmatch ic r2 s' caps' k).
Proof. reflexivity. Qed.

(** A match of the blank-lines pattern starts with a newline, has at
    least three characters and takes every newline at its end. *)
Lemma blank_lines_match (s : str) (n : nat) (caps : captures) :
  match_at false blank_lines s = Some (n, caps) ->
  3 <= n <= length s
  /\ (exists s', s = newline :: s')
  /\ forall r, skipn n s <> newline :: r.
Proof.
  unfold match_at, blank_lines. intros H.
  rewrite rmatch_Cat in H. apply rmatch_sound in H.
  destruct H as (w1 & s1 & c1 & E1 & M1 & H).
  rewrite rmatch_Cat in H. apply rmatch_sound in H.
  destruct H as (w2 & s2 & c2 & E2 & M2 & H).
  rewrite rmatch_Cat in H. apply rmatch_sound in H.
  destruct H as (w3 & s3 & c3 & E3 & M3 & H).
  rewrite rmatch_Cat in H. apply rmatch_sound in H.
  destruct H as (w4 & s4 & c4 & E4 & M4 & H).
  inversion M1 as [|a x ? Hx| | | | | | | | |]; subst w1.
  inversion M3 as [|a' y ? Hy| | | | | | | | |]; subst w3.
  apply ascii_eqb_eq in Hx. subst x.
  destruct s4 as [|z s5]; [discriminate|]. cbn [rmatch] in H.
  destruct (is_newline z) eqn:Ez; [|discriminate].
  rewrite (star_loop_always _ is_newline
             (fun s'' => (length s - length s'', c4))) in H.
  injection H as Hn _.
  destruct (lstrip_by_spec is_newline s5) as (p & Es & _ & Hfirst).
  assert (Ew : s = ([newline] ++ w2 ++ [y] ++ w4 ++ z :: p)
                   ++ lstrip_by is_newline s5).
  { rewrite E1, E2, E3, E4. rewrite Es at 1.
    rewrite <- ?app_assoc. simpl. rewrite <- ?app_assoc. reflexivity. }
  assert (Ln : n = length ([newline] ++ w2 ++ [y] ++ w4 ++ z :: p)).
  { rewrite <- Hn. rewrite Ew at 1. rewrite length_app. lia. }
  split; [|split].
  - split.
    + rewrite Ln. cbn [app length]. rewrite ?length_app. cbn [app length].
      rewrite ?length_app. cbn [length]. lia.
    + rewrite Ln, Ew, (length_app (_ ++ _)). lia.
  - rewrite Ew. simpl. eexists. reflexivity.
  - intros r Hr. rewrite Ew, Ln in Hr.
    rewrite skipn_app, skipn_all, Nat.sub_diag in Hr. simpl in Hr.
    apply Hfirst in Hr. unfold is_newline in Hr.
    assert (ascii_eqb newline newline = true) by now apply ascii_eqb_eq.
    congruence.
Qed.

(** Three newlines in a row are a run of blank lines, and so is a
    newline before one. *)
Lemma blank_lines_three (s : str) :
  match_at false blank_lines (newline :: newline :: newline :: s) <> None.
Proof.
  apply (match_at_complete false blank_lines [newline; newline; newline] s [] []).
  unfold blank_lines.
  change [newline; newline; newline]
    with ([newline] ++ [] ++ [newline] ++ [] ++ [newline]).
  repeat (econstructor; try reflexivity).
Qed.

Lemma blank_lines_before (s : str) :
  match_at false blank_lines s <> None ->
  match_at false blank_lines (newline :: s) <> None.
Proof.
  intros H. destruct (match_at false blank_lines s) as [[n caps]|] eqn:E;
    [clear H | contradiction].
  apply match_at_sound in E. destruct E as (w & s' & -> & _ & M).
  unfold blank_lines in M.
  inversion M as [| | |? ? w1 u1 ? c1 ? M1 H1| | | | | | |]; subst; clear M.
  inversion M1 as [|a x ? Hx| | | | | | | | |]; subst.
  apply ascii_eqb_eq in Hx. subst x.
  inversion H1 as [| | |? ? w2 u2 ? c2 ? M2 H2| | | | | | |]; subst; clear H1.
  inversion M2 as [| | | | | | | |? ? ? Hw2| |]; subst.
  change (newline :: ([newline] ++ w2 ++ u2) ++ s')
    with (([newline] ++ (newline :: w2) ++ u2) ++ s').
  apply (match_at_complete false blank_lines _ s' [] caps).
  unfold blank_lines.
  apply (M_Cat false _ _ [newline] ((newline :: w2) ++ u2) [] [] caps);
    [exact M1|].
  apply (M_Cat false _ _ (newline :: w2) u2 [] [] caps); [|exact H2].
  constructor. simpl. exact Hw2.
Qed.

Lemma blank_lines_sub (n : nat) :
  forall s, length s <= n ->
    ~ substring [newline; newline; newline]
        (re_sub false blank_lines (repl_const [newline; newline]) s)
    /\ (forall r,
           re_sub false blank_lines (repl_const [newline; newline]) s
           = newline :: r ->
           exists s', s = newline :: s')
    /\ (forall r,
           re_sub false blank_lines (repl_const [newline; newline]) s
           = newline :: newline :: r ->
           match_at false blank_lines s <> None
           \/ exists s'', s = newline :: newline :: s'').
Proof.
  unfold re_sub.
  induction n as [|n IH]; intros s Hn.
  - destruct s; [|simpl in Hn; lia].
    split; [|split]; [intros (pre & post & E); destruct pre; discriminate
                     | discriminate | discriminate].
  - destruct s as [|c s].
    { split; [|split]; [intros (pre & post & E); destruct pre; discriminate
                       | discriminate | discriminate]. }
    simpl in Hn. cbn [re_sub_aux].
    destruct (match_at false blank_lines (c :: s)) as [[k caps]|] eqn:Em.
    + pose proof (blank_lines_match _ _ _ Em) as ([Hk3 Hkl] & (s' & Es) & Hrest).
      destruct k as [|k]; [lia|]. cbn [length] in Hkl.
      rewrite re_sub_aux_skip by lia. cbn [skipn] in Hrest.
      assert (Hlen : length (skipn k s) <= n) by (rewrite length_skipn; lia).
      destruct (IH _ Hlen) as (I1 & I2 & I3).
      change (repl_const [newline; newline] caps) with [newline; newline].
      cbn [app].
      split; [|split].
      * intros (pre & post & E).
        destruct pre as [|x [|y pre]]; simpl in E.
        -- injection E as E. apply I2 in E.
           destruct E as (s1 & E). now apply Hrest in E.
        -- injection E as _ E. apply I2 in E.
           destruct E as (s1 & E). now apply Hrest in E.
        -- injection E as _ _ E. apply I1. now exists pre, post.
      * intros r _. injection Es as -> _. now exists s.
      * intros r _. left. discriminate.
    + destruct (IH s ltac:(lia)) as (I1 & I2 & I3).
      split; [|split].
      * intros (pre & post & E). destruct pre as [|x pre]; simpl in E.
        -- injection E as -> E. apply I3 in E.
           destruct E as [E|(s2 & ->)].
           ++ apply blank_lines_before in E. congruence.
           ++ now apply (blank_lines_three s2).
        -- injection E as _ E. apply I1. now exists pre, post.
      * intros r E. injection E as -> _. now exists s.
      * intros r E. injection E as -> E. apply I2 in E.
        destruct E as (s1 & ->). right. now exists s1.
Qed.

(** What [clean_content] returns holds no tabulation, no two consecutive
    spaces and no three consecutive newlines: every run of spaces and
    tabulations has become one space, and every run of blank lines one
    blank line. *)
Theorem clean_content_blanks (content : str) :
  ~ In tab (clean_content content)
  /\ ~ substring (py "  ") (clean_content content)
  /\ ~ substring [newline; newline; newline] (clean_content content).
Proof.
  unfold clean_content. cbv zeta.
  match goal with
  | |- ~ In tab (strip (re_sub _ _ _ (re_sub _ _ _ ?s0))) /\ _ =>
      set (s := re_sub false blank_lines (repl_const [newline; newline]) s0);
      destruct (blank_lines_sub (length s0) s0 (le_n _)) as (Hb & _)
  end.
  fold s in Hb.
  destruct (squeeze_blanks (length s) s (le_n _)) as [Ht Hd].
  pose proof (squeeze_newlines (length s) s (le_n _)) as Hn.
  destruct (strip_spec (re_sub false (Plus is_blank) (repl_const (py " ")) s))
    as (pre & suf & E & _).
  split; [|split].
  - intros H. apply Ht. rewrite E. apply in_or_app. right.
    apply in_or_app. now left.
  - intros (a & b & H). apply Hd. rewrite E, H.
    exists (pre ++ a), (b ++ suf). now rewrite <- !app_assoc.
  - intros (a & b & H). apply Hb, Hn. rewrite E, H.
    exists (pre ++ a), (b ++ suf). now rewrite <- !app_assoc.
Qed.

(** ** Documents without an opening *)







